(** * Fast Probabilistic Consensus voter (package fpc): model and properties

    A shallow embedding of the FPC engine of goshimmer (packages/vote/fpc):
    the submission queue, the registry of vote contexts, the mana based
    sampling of opinion givers, the query and aggregation pipeline and the
    round driver, followed by the properties of the specification.

    Conventions.
    - Go's [float64] is the IEEE 754 binary64 type of Rocq's primitive floats;
      every operation is rounded on its own, as on amd64, where the compiler
      does not fuse a multiplication with an addition.
    - Go's [int] is a 64-bit two's complement integer: it is held in [Z] and
      [int_wrap] writes out what [++] does at the upper end of the range.
    - A Go map is a [gmap]; ranging over it visits the entries in the order of
      [map_to_list].  Go leaves that order open; no property below depends on
      it unless it says so.
    - A run-time panic (index out of range, nil dereference, [Intn] of a non
      positive bound) is the [None] of the option monad. *)

From Stdlib Require Import ZArith Uint63 Floats.PrimFloat.
From stdpp Require Import gmap strings list fin_maps.

Local Open Scope Z_scope.
Set Warnings "-clear-no-such-hyp".

(** ** Machine numbers *)

Abbreviation float64 := float.

Definition MaxInt64 : Z := 2 ^ 63 - 1.
Definition MinInt64 : Z := - 2 ^ 63.

(** Two's complement reduction of a mathematical integer to Go's [int]. *)
Definition int_wrap (z : Z) : Z := (z + 2 ^ 63) mod 2 ^ 64 - 2 ^ 63.

Definition is_int (z : Z) : Prop := MinInt64 <= z <= MaxInt64.

(** [len(s)] of a slice. *)
Definition len {A} (l : list A) : Z := Z.of_nat (length l).

(** [float64(n)] for an [int] n: round to nearest. *)
Definition float64_of_int (z : Z) : float64 :=
  if z <? 0 then PrimFloat.opp (PrimFloat.of_uint63 (Uint63.of_Z (- z)))
  else PrimFloat.of_uint63 (Uint63.of_Z z).

(** ** Errors *)

Inductive error : Type :=
  | ErrVoteAlreadyOngoing (id : string)
  | ErrNoOpinionGiversAvailable
  | ErrVotingNotFound (id : string)
  | ErrExternal (msg : string).

(** A Go result pair [(value, err)]. *)
Inductive Result (A : Type) : Type :=
  | Ok (a : A)
  | Err (e : error).
Arguments Ok {A} a.
Arguments Err {A} e.

(** ** Package opinion *)

Module opinion.

(** Modelled from the spec: the declaration of [opinion.Opinion] is not part of
    the sources at hand; the specification gives it exactly three values. *)
Inductive Opinion : Type := Like | Dislike | Unknown.

#[export] Instance Opinion_eq_dec : EqDecision Opinion.
Proof. solve_decision. Defined.

(** Modelled from the spec: [opinion.ConvertOpinionToFloat64] is not part of
    the sources at hand; Like is encoded as 1.0, Dislike as 0.0 and Unknown as
    a negative scalar. *)
Definition ConvertOpinionToFloat64 (o : Opinion) : float64 :=
  match o with
  | Like => 1%float
  | Dislike => 0%float
  | Unknown => (-1)%float
  end.

(** [opinion.QueriedOpinions], as filled in by [queryOpinions]. *)
Record QueriedOpinions : Type := mkQueriedOpinions {
  OpinionGiverID : string;
  QOpinions : gmap string Opinion;
  TimesCounted : Z;
}.

End opinion.
Export opinion.

(** ** Package vote *)

Module vote.

(** Modelled from the spec: the declaration of [vote.ObjectType] is not part
    of the sources at hand.  The recognised tags are Conflict and Timestamp;
    the Go type is an integer type, so other tags exist and the [switch] of
    [voteContextIDs] skips them. *)
Inductive ObjectType : Type :=
  | ConflictType
  | TimestampType
  | OtherType (tag : Z).

Record VotingWeights : Type := mkVotingWeights {
  OwnWeight : float64;
  TotalWeights : float64;
}.

(** Modelled from the spec: [vote.Context] and its methods are not part of the
    sources at hand.  The fields are the ones the engine reads and writes. *)
Record Context : Type := mkContext {
  ID : string;
  Type_ : ObjectType;
  ProportionLiked : float64;
  Rounds : Z;
  Opinions : list Opinion;
  Weights : VotingWeights;
}.

(** Modelled from the spec: a new context holds the initial opinion only, no
    round, liked proportion 0 and weights (0, 0). *)
Definition NewContext (id : string) (objectType : ObjectType) (initOpn : Opinion) : Context :=
  {| ID := id; Type_ := objectType; ProportionLiked := 0%float; Rounds := 0;
     Opinions := [initOpn];
     Weights := {| OwnWeight := 0%float; TotalWeights := 0%float |} |}.

(** Modelled from the spec: the current opinion is the last of the sequence. *)
Definition LastOpinion (c : Context) : Opinion := List.last (Opinions c) Unknown.

(** Modelled from the spec: the sequence of opinions only grows, at its end. *)
Definition AddOpinion (o : Opinion) (c : Context) : Context :=
  {| ID := ID c; Type_ := Type_ c; ProportionLiked := ProportionLiked c;
     Rounds := Rounds c; Opinions := Opinions c ++ [o]; Weights := Weights c |}.

(** Modelled from the spec: [IsNew] holds when no round has ticked yet. *)
Definition IsNew (c : Context) : bool := Rounds c =? 0.

(** Modelled from the spec: [HadFixedRound] holds when
    rounds > cooldown + finalization + fixed. *)
Definition HadFixedRound (coolingOffPeriod totalRoundsFinalization totalRoundsFixedThreshold : Z)
    (c : Context) : bool :=
  coolingOffPeriod + totalRoundsFinalization + totalRoundsFixedThreshold <? Rounds c.

(** The last [n] elements of a list (all of it when it is shorter). *)
Definition lastn {A} (n : nat) (l : list A) : list A := drop (length l - n)%nat l.

(** Modelled from the spec: [IsFinalized] holds when
    rounds - cooldown >= finalization, the last [finalization] opinions are
    identical and none of them is Unknown. *)
Definition IsFinalized (coolingOffPeriod finalizationThreshold : Z) (c : Context) : bool :=
  let held := lastn (Z.to_nat finalizationThreshold) (Opinions c) in
  (finalizationThreshold <=? Rounds c - coolingOffPeriod)
  && forallb (λ o, bool_decide (o = List.hd Unknown held)) held
  && forallb (λ o, negb (bool_decide (o = Unknown))) held.

(** The write [Rounds++] of the round tick. *)
Definition tick (c : Context) : Context :=
  {| ID := ID c; Type_ := Type_ c; ProportionLiked := ProportionLiked c;
     Rounds := int_wrap (Rounds c + 1); Opinions := Opinions c; Weights := Weights c |}.

(** The two writes at the end of [queryOpinions]. *)
Definition setLiked (w : VotingWeights) (p : float64) (c : Context) : Context :=
  {| ID := ID c; Type_ := Type_ c; ProportionLiked := p;
     Rounds := Rounds c; Opinions := Opinions c; Weights := w |}.

(** [vote.OpinionEvent]: the payload of Finalized and Failed; [Ctx] is a copy. *)
Record OpinionEvent : Type := mkOpinionEvent {
  EvID : string;
  EvOpinion : Opinion;
  EvCtx : Context;
}.

(** [vote.RoundStats], without the wall-clock duration.  The Go value shares
    the live registry; the model records the registry as it is when the event
    is triggered. *)
Record RoundStats : Type := mkRoundStats {
  RandUsed : float64;
  ActiveVoteContexts : gmap string Context;
  QueriedOpinions_ : list QueriedOpinions;
}.

(** What [vote.Events] has triggered. *)
Inductive Event : Type :=
  | Finalized (e : OpinionEvent)
  | Failed (e : OpinionEvent)
  | RoundExecuted (s : RoundStats).

End vote.
Export vote.

(** ** Package fpc *)

Module fpc.

(** The constant 0.001, rounded to the nearest float64 as the Go compiler does. *)
Definition toleranceTotalMana : float64 := 0x1.0624dd2f1a9fcp-10%float.

(** [fpc.Parameters]: its declaration is not part of the sources at hand; the
    fields are the ones the engine reads ([QueryTimeout] bounds a query, whose
    expiry is an error of [Query] here). *)
Record Parameters : Type := mkParameters {
  FirstRoundLowerBoundThreshold : float64;
  FirstRoundUpperBoundThreshold : float64;
  SubsequentRoundsLowerBoundThreshold : float64;
  SubsequentRoundsUpperBoundThreshold : float64;
  EndingRoundsFixedThreshold : float64;
  QuerySampleSize : Z;
  MaxQuerySampleSize : Z;
  MinOpinionsReceived : Z;
  TotalRoundsCoolingOffPeriod : Z;
  TotalRoundsFinalization : Z;
  TotalRoundsFixedThreshold : Z;
  MaxRoundsPerVoteContext : Z;
}.

(** *** The random source

    [*rand.Rand] is a stream of outcomes and the number of calls made so far:
    the k-th call returns the k-th outcome, read as a float64 by [Float64] and
    reduced to the range [0, n) by [Intn]. *)
Record Rand : Type := mkRand {
  rng_floats : nat → float64;
  rng_ints : nat → Z;
  rng_calls : nat;
}.

Definition rng_next (r : Rand) : Rand :=
  {| rng_floats := rng_floats r; rng_ints := rng_ints r; rng_calls := S (rng_calls r) |}.

Definition Float64 (r : Rand) : float64 * Rand :=
  (rng_floats r (rng_calls r), rng_next r).

(** [Intn] panics when its bound is not positive. *)
Definition Intn (r : Rand) (n : Z) : option (Z * Rand) :=
  if n <=? 0 then None else Some (rng_ints r (rng_calls r) `mod` n, rng_next r).

(** *** Opinion givers

    [opinion.OpinionGiver] is an interface; its values are map keys, so they
    are compared, and a giver listed twice is one key. *)
Class OpinionGiver (G : Type) `{Countable G} : Type := {
  GiverID : G → string;
  Mana : G → float64;
  Query : G → list string → list string → Result (list Opinion);
}.

(** *** Sampling of the opinion givers to query *)

Section Sampling.
Context {G : Type} `{OpinionGiver G}.

(** [opinionGiversToQuery[selected]++]: a missing key reads as 0. *)
Definition incr (selected : G) (m : gmap G Z) : gmap G Z :=
  <[selected := int_wrap (default 0 (m !! selected) + 1)]> m.

(** The first loop of [ManaBasedSampling]: the running total and the slice
    [totals] of the running totals. *)
Fixpoint sumMana (opinionGivers : list G) (totalConsensusMana : float64)
    (totals : list float64) : float64 * list float64 :=
  match opinionGivers with
  | [] => (totalConsensusMana, totals)
  | g :: rest =>
      let totalConsensusMana := (totalConsensusMana + Mana g)%float in
      sumMana rest totalConsensusMana (totals ++ [totalConsensusMana])
  end.

(** The inner loop [for idx, v := range totals]: the giver at the first index
    whose running total exceeds [rnd] is counted once, then [break]. *)
Fixpoint selectGiver (opinionGivers : list G) (totals : list float64) (idx : nat)
    (rnd : float64) (m : gmap G Z) : option (gmap G Z) :=
  match totals with
  | [] => Some m
  | v :: rest =>
      if (rnd <? v)%float
      then selected ← opinionGivers !! idx; Some (incr selected m)
      else selectGiver opinionGivers rest (S idx) rnd m
  end.

(** The outer loop
    [for i := 0; i < maxQuerySampleSize && len(m) < querySampleSize; i++],
    with [fuel] the iterations left before [i] reaches [maxQuerySampleSize]. *)
Fixpoint weightedDraws (fuel : nat) (opinionGivers : list G) (totals : list float64)
    (totalConsensusMana : float64) (querySampleSize : Z)
    (m : gmap G Z) (rng : Rand) : option (gmap G Z * Rand) :=
  match fuel with
  | O => Some (m, rng)
  | S fuel' =>
      if Z.of_nat (size m) <? querySampleSize then
        let '(x, rng) := Float64 rng in
        let rnd := (x * totalConsensusMana)%float in
        m ← selectGiver opinionGivers totals 0 rnd m;
        weightedDraws fuel' opinionGivers totals totalConsensusMana querySampleSize m rng
      else Some (m, rng)
  end.

(** The loop [for i := 0; i < querySampleSize; i++] of [UniformSampling]. *)
Fixpoint uniformDraws (fuel : nat) (opinionGivers : list G)
    (m : gmap G Z) (rng : Rand) : option (gmap G Z * Rand) :=
  match fuel with
  | O => Some (m, rng)
  | S fuel' =>
      '(k, rng) ← Intn rng (len opinionGivers);
      selected ← opinionGivers !! Z.to_nat k;
      uniformDraws fuel' opinionGivers (incr selected m) rng
  end.

Definition UniformSampling (opinionGivers : list G) (maxQuerySampleSize querySampleSize : Z)
    (rng : Rand) : option (gmap G Z * Rand) :=
  uniformDraws (Z.to_nat querySampleSize) opinionGivers ∅ rng.

(** The result is the map, the total mana and the random source after the
    draws (the Go code advances it in place). *)
Definition ManaBasedSampling (opinionGivers : list G) (maxQuerySampleSize querySampleSize : Z)
    (rng : Rand) : option (gmap G Z * float64 * Rand) :=
  let '(totalConsensusMana, totals) := sumMana opinionGivers 0%float [] in
  if (PrimFloat.abs totalConsensusMana <=? toleranceTotalMana)%float then
    '(m, rng) ← UniformSampling opinionGivers maxQuerySampleSize querySampleSize rng;
    Some (m, 0%float, rng)
  else
    '(m, rng) ← weightedDraws (Z.to_nat maxQuerySampleSize) opinionGivers totals
                  totalConsensusMana querySampleSize ∅ rng;
    Some (m, totalConsensusMana, rng).

End Sampling.

(** *** The engine *)

(** The state of an [*FPC].  [events] is the sequence of events triggered so
    far, oldest first.  The two suppliers ([opinionGiverFunc] and
    [ownWeightRetrieverFunc]) read the outside world: what they return during
    one round is the [Oracle] that round is run with. *)
Record FPC : Type := mkFPC {
  events : list Event;
  queue : list Context;
  queueSet : gset string;
  ctxs : gmap string Context;
  paras : Parameters;
  lastRoundCompletedSuccessfully : bool;
  opinionGiverRng : Rand;
}.

Record Oracle (G : Type) : Type := mkOracle {
  opinionGiverFunc : Result (list G);
  ownWeightRetrieverFunc : Result float64;
}.
Arguments mkOracle {G} _ _.
Arguments opinionGiverFunc {G} _.
Arguments ownWeightRetrieverFunc {G} _.

Definition New (paras : Parameters) (rng : Rand) : FPC :=
  {| events := []; queue := []; queueSet := ∅; ctxs := ∅; paras := paras;
     lastRoundCompletedSuccessfully := false; opinionGiverRng := rng |}.

Definition set_ctxs (m : gmap string Context) (f : FPC) : FPC :=
  {| events := events f; queue := queue f; queueSet := queueSet f; ctxs := m;
     paras := paras f; lastRoundCompletedSuccessfully := lastRoundCompletedSuccessfully f;
     opinionGiverRng := opinionGiverRng f |}.

Definition set_rng (r : Rand) (f : FPC) : FPC :=
  {| events := events f; queue := queue f; queueSet := queueSet f; ctxs := ctxs f;
     paras := paras f; lastRoundCompletedSuccessfully := lastRoundCompletedSuccessfully f;
     opinionGiverRng := r |}.

Definition SetOpinionGiverRng (f : FPC) (rng : Rand) : FPC := set_rng rng f.

(** [Vote]: the result is the engine afterwards and the error, if any. *)
Definition Vote (f : FPC) (id : string) (objectType : ObjectType) (initOpn : Opinion)
    : FPC * option error :=
  if decide (id ∈ queueSet f) then (f, Some (ErrVoteAlreadyOngoing id))
  else if decide (is_Some (ctxs f !! id)) then (f, Some (ErrVoteAlreadyOngoing id))
  else
    ({| events := events f;
        queue := queue f ++ [NewContext id objectType initOpn];
        queueSet := {[id]} ∪ queueSet f;
        ctxs := ctxs f; paras := paras f;
        lastRoundCompletedSuccessfully := lastRoundCompletedSuccessfully f;
        opinionGiverRng := opinionGiverRng f |}, None).

Definition IntermediateOpinion (f : FPC) (id : string) : Opinion * option error :=
  match ctxs f !! id with
  | None => (Unknown, Some (ErrVotingNotFound id))
  | Some voteCtx => (LastOpinion voteCtx, None)
  end.

(** The loop of [enqueue]: the front element moves to the registry and leaves
    the queue set, until the queue is empty. *)
Fixpoint drain (q : list Context) (m : gmap string Context) (qs : gset string)
    : gmap string Context * gset string :=
  match q with
  | [] => (m, qs)
  | voteCtx :: rest => drain rest (<[ID voteCtx := voteCtx]> m) (qs ∖ {[ID voteCtx]})
  end.

Definition enqueue (f : FPC) : FPC :=
  let '(m, qs) := drain (queue f) (ctxs f) (queueSet f) in
  {| events := events f; queue := []; queueSet := qs; ctxs := m; paras := paras f;
     lastRoundCompletedSuccessfully := lastRoundCompletedSuccessfully f;
     opinionGiverRng := opinionGiverRng f |}.

(** Modelled from the spec: [RandUniformThreshold] is not part of the sources
    at hand; the threshold drawn is lower + r * (upper - lower). *)
Definition RandUniformThreshold (rand lowerThreshold upperThreshold : float64) : float64 :=
  (lowerThreshold + rand * (upperThreshold - lowerThreshold))%float.

Definition biasTowardsOwnOpinion (voteCtx : Context) : float64 :=
  let totalMana := TotalWeights (Weights voteCtx) in
  let ownMana := OwnWeight (Weights voteCtx) in
  if (ownMana =? 0)%float || (totalMana =? 0)%float then ProportionLiked voteCtx
  else
    let ownOpinion := ConvertOpinionToFloat64 (LastOpinion voteCtx) in
    if (ownOpinion <? 0)%float then ProportionLiked voteCtx
    else (ownMana / totalMana * ownOpinion
          + (1 - ownMana / totalMana) * ProportionLiked voteCtx)%float.

(** One turn of the loop of [finalizeOpinions]. *)
Definition finalizeOne (p : Parameters) (acc : gmap string Context * list Event)
    (entry : string * Context) : gmap string Context * list Event :=
  let '(id, voteCtx) := entry in
  if IsFinalized (TotalRoundsCoolingOffPeriod p) (TotalRoundsFinalization p) voteCtx then
    (delete id acc.1,
     acc.2 ++ [Finalized {| EvID := id; EvOpinion := LastOpinion voteCtx; EvCtx := voteCtx |}])
  else if MaxRoundsPerVoteContext p <=? Rounds voteCtx then
    (delete id acc.1,
     acc.2 ++ [Failed {| EvID := id; EvOpinion := LastOpinion voteCtx; EvCtx := voteCtx |}])
  else acc.

Definition finalizeOpinions (f : FPC) : FPC :=
  let '(m, evs) := foldl (finalizeOne (paras f)) (ctxs f, events f) (map_to_list (ctxs f)) in
  {| events := evs; queue := queue f; queueSet := queueSet f; ctxs := m; paras := paras f;
     lastRoundCompletedSuccessfully := lastRoundCompletedSuccessfully f;
     opinionGiverRng := opinionGiverRng f |}.

(** The loop [for voteObjectID := range f.ctxs { f.ctxs[voteObjectID].Rounds++ }]. *)
Definition tickAll (f : FPC) : FPC := set_ctxs (tick <$> ctxs f) f.

Definition voteContextIDs (f : FPC) : list string * list string :=
  foldl (λ (acc : list string * list string) (entry : string * Context),
           match Type_ entry.2 with
           | ConflictType => (acc.1 ++ [entry.1], acc.2)
           | TimestampType => (acc.1, acc.2 ++ [entry.1])
           | OtherType _ => acc
           end)
        ([], []) (map_to_list (ctxs f)).

Definition createVoteMapForConflicts (conflictIDs timestampIDs : list string)
    : gmap string (list Opinion) :=
  let voteMap := foldl (λ vm id, <[id := []]> vm) ∅ conflictIDs in
  foldl (λ vm id, <[id := []]> vm) voteMap timestampIDs.

(** A loop whose body may panic. *)
Fixpoint foldl_opt {A B} (body : B → A → option B) (b : B) (l : list A) : option B :=
  match l with
  | [] => Some b
  | x :: rest => b ← body b x; foldl_opt body b rest
  end.

(** [for j := 0; j < selectedCount; j++ { voteMap[id] = append(voteMap[id], o) }] *)
Fixpoint appendVotes (fuel : nat) (id : string) (o : Opinion)
    (voteMap : gmap string (list Opinion)) : gmap string (list Opinion) :=
  match fuel with
  | O => voteMap
  | S fuel' => appendVotes fuel' id o (<[id := default [] (voteMap !! id) ++ [o]]> voteMap)
  end.

(** [for i, id := range ids { ... opinions[i] ... }], the shape of both loops
    of the query task; [i] is the index the range has reached. *)
Fixpoint addOpinions (ids : list string) (i : nat) (opinions : list Opinion) (selectedCount : Z)
    (voteMap : gmap string (list Opinion)) (queried : gmap string Opinion)
    : option (gmap string (list Opinion) * gmap string Opinion) :=
  match ids with
  | [] => Some (voteMap, queried)
  | id :: rest =>
      o ← opinions !! i;
      addOpinions rest (S i) opinions selectedCount
        (appendVotes (Z.to_nat selectedCount) id o voteMap) (<[id := o]> queried)
  end.

(** The vote count and the liked sum of one tally. *)
Fixpoint countVotes (votes : list Opinion) (votedCount : Z) (likedSum : float64) : Z * float64 :=
  match votes with
  | [] => (votedCount, likedSum)
  | Unknown :: rest => countVotes rest (votedCount - 1) likedSum
  | Like :: rest => countVotes rest votedCount (likedSum + 1)%float
  | Dislike :: rest => countVotes rest votedCount likedSum
  end.

(** One turn of the loop [for id, votes := range voteMap]. *)
Definition aggregateOne (p : Parameters) (ownMana totalMana : float64)
    (m : gmap string Context) (entry : string * list Opinion) : option (gmap string Context) :=
  let '(id, votes) := entry in
  let '(votedCount, likedSum) := countVotes votes (len votes) 0%float in
  if votedCount <? MinOpinionsReceived p then Some m
  else
    voteCtx ← m !! id;
    Some (<[id := setLiked {| OwnWeight := ownMana; TotalWeights := totalMana |}
                           (likedSum / float64_of_int votedCount)%float voteCtx]> m).

Definition aggregate (p : Parameters) (ownMana totalMana : float64)
    (voteMap : gmap string (list Opinion)) (m : gmap string Context)
    : option (gmap string Context) :=
  foldl_opt (aggregateOne p ownMana totalMana) m (map_to_list voteMap).

Section Engine.
Context {G : Type} `{OpinionGiver G}.

(** The method [HadFirstRound] of [vote.Context] is not part of the sources
    at hand.  The call passes it no parameter, whereas the specification
    words it with the cooldown; it is left open, and what follows holds for
    every reading of it. *)
Variable HadFirstRound : Context → bool.

Definition setThreshold (p : Parameters) (voteCtx : Context) : float64 * float64 :=
  let lowerThreshold := SubsequentRoundsLowerBoundThreshold p in
  let upperThreshold := SubsequentRoundsUpperBoundThreshold p in
  let '(lowerThreshold, upperThreshold) :=
    if HadFirstRound voteCtx
    then (FirstRoundLowerBoundThreshold p, FirstRoundUpperBoundThreshold p)
    else (lowerThreshold, upperThreshold) in
  if HadFixedRound (TotalRoundsCoolingOffPeriod p) (TotalRoundsFinalization p)
                   (TotalRoundsFixedThreshold p) voteCtx
  then (EndingRoundsFixedThreshold p, EndingRoundsFixedThreshold p)
  else (lowerThreshold, upperThreshold).

(** The body of the loop of [formOpinions]. *)
Definition formOpinion (p : Parameters) (rand : float64) (voteCtx : Context) : Context :=
  if IsNew voteCtx then voteCtx
  else
    let '(lowerThreshold, upperThreshold) := setThreshold p voteCtx in
    let eta := biasTowardsOwnOpinion voteCtx in
    if (RandUniformThreshold rand lowerThreshold upperThreshold <=? eta)%float
    then AddOpinion Like voteCtx
    else AddOpinion Dislike voteCtx.

Definition formOpinions (f : FPC) (rand : float64) : FPC :=
  set_ctxs (formOpinion (paras f) rand <$> ctxs f) f.

(** The task run for one selected giver, under the mutex of the vote map:
    the state is the vote map and the queried opinions collected so far. *)
Definition queryGiver (conflictIDs timestampIDs : list string)
    (st : gmap string (list Opinion) * list QueriedOpinions) (sel : G * Z)
    : option (gmap string (list Opinion) * list QueriedOpinions) :=
  let '(opinionGiverToQuery, selectedCount) := sel in
  match Query opinionGiverToQuery conflictIDs timestampIDs with
  | Err _ => Some st
  | Ok opinions =>
      if bool_decide (len opinions ≠ len conflictIDs + len timestampIDs) then Some st
      else
        '(voteMap, queried) ← addOpinions conflictIDs 0 opinions selectedCount st.1 ∅;
        '(voteMap, queried) ← addOpinions timestampIDs 0 opinions selectedCount voteMap queried;
        Some (voteMap,
              st.2 ++ [{| OpinionGiverID := GiverID opinionGiverToQuery;
                          QOpinions := queried;
                          TimesCounted := selectedCount |}])
  end.

(** The tasks run one after the other, in the order of the map of selected
    givers: the mutex makes each of them atomic. *)
Definition queryOpinions (f : FPC) (world : Oracle G)
    : option (FPC * Result (list QueriedOpinions)) :=
  let '(conflictIDs, timestampIDs) := voteContextIDs f in
  if bool_decide (len conflictIDs = 0) && bool_decide (len timestampIDs = 0)
  then Some (f, Ok [])
  else
    match opinionGiverFunc world with
    | Err e => Some (f, Err e)
    | Ok opinionGivers =>
        if bool_decide (len opinionGivers = 0) then Some (f, Err ErrNoOpinionGiversAvailable)
        else
          '(opinionGiversToQuery, totalOpinionGiversMana, rng) ←
            ManaBasedSampling opinionGivers (MaxQuerySampleSize (paras f))
                              (QuerySampleSize (paras f)) (opinionGiverRng f);
          let f := set_rng rng f in
          match ownWeightRetrieverFunc world with
          | Err e => Some (f, Err e)
          | Ok ownMana =>
              let totalMana := (totalOpinionGiversMana + ownMana)%float in
              let voteMap := createVoteMapForConflicts conflictIDs timestampIDs in
              '(voteMap, allQueriedOpinions) ←
                foldl_opt (queryGiver conflictIDs timestampIDs) (voteMap, [])
                          (map_to_list opinionGiversToQuery);
              m ← aggregate (paras f) ownMana totalMana voteMap (ctxs f);
              Some (set_ctxs m f, Ok allQueriedOpinions)
          end
    end.

(** [Round]: the engine afterwards and the error returned, if any. *)
Definition Round (f : FPC) (rand : float64) (world : Oracle G) : option (FPC * option error) :=
  let f := enqueue f in
  let f := if lastRoundCompletedSuccessfully f
           then finalizeOpinions (formOpinions f rand) else f in
  let f := tickAll f in
  '(f, res) ← queryOpinions f world;
  match res with
  | Ok queriedOpinions =>
      Some ({| events := events f ++ [RoundExecuted {| RandUsed := rand;
                                                       ActiveVoteContexts := ctxs f;
                                                       QueriedOpinions_ := queriedOpinions |}];
               queue := queue f; queueSet := queueSet f; ctxs := ctxs f; paras := paras f;
               lastRoundCompletedSuccessfully := true;
               opinionGiverRng := opinionGiverRng f |}, None)
  | Err e => Some (f, Some e)
  end.

End Engine.

End fpc.
Export fpc.

(** ** The sampler in the words of the specification

    The definitions of this section are written from the specification of the
    weighted sampler, not from the code; the code is compared with them
    below. *)

Section SamplerSpec.
Context {G : Type} `{OpinionGiver G}.

(** M, the sum of the mana of the givers, taken from left to right. *)
Definition totalManaOf (gs : list G) : float64 :=
  foldl PrimFloat.add 0%float (Mana <$> gs).

(** The cumulative prefix sums, one per giver. *)
Fixpoint prefixSumsFrom (acc : float64) (gs : list G) : list float64 :=
  match gs with
  | [] => []
  | g :: rest => (acc + Mana g)%float :: prefixSumsFrom (acc + Mana g)%float rest
  end.

Definition prefixSums (gs : list G) : list float64 := prefixSumsFrom 0%float gs.

(** The giver whose cumulative prefix first exceeds [x], if there is one. *)
Definition pick (gs : list G) (x : float64) : option G :=
  fst <$> List.find (λ gp : G * float64, (x <? gp.2)%float) (zip gs (prefixSums gs)).

(** The multiset of a sequence of selections, as the map giver → count. *)
Definition countMap (sel : list G) : gmap G Z :=
  foldl (λ m g, <[g := default 0 (m !! g) + 1]> m) ∅ sel.

(** How often [g] occurs in [sel]. *)
Definition multiplicity (g : G) (sel : list G) : Z :=
  Z.of_nat (length (filter (λ x, x = g) sel)).

(** The number of distinct givers of [sel]. *)
Definition distinct (sel : list G) : nat := size (list_to_set sel : gset G).

(** Uniform sampling: [n] draws with replacement, the j-th one (counted from
    the k-th outcome of the source) being the giver at a position that the
    source gives in [0, len gs). *)
Fixpoint uniformSelection (n : nat) (gs : list G) (draw : nat → Z) (k : nat) : list G :=
  match n with
  | O => []
  | S n' => option_list (gs !! Z.to_nat (draw k `mod` len gs))
              ++ uniformSelection n' gs draw (S k)
  end.

(** Weighted sampling: up to [attempts] attempts; each draws x = u * M and
    selects the giver picked by x; it stops early once the distinct givers
    selected reach [querySampleSize].  The result is the selections, in
    order, and the number of outcomes of the source consumed so far. *)
Fixpoint weightedSelection (attempts : nat) (gs : list G) (M : float64) (querySampleSize : Z)
    (draw : nat → float64) (k : nat) (sel : list G) : list G * nat :=
  match attempts with
  | O => (sel, k)
  | S attempts' =>
      if Z.of_nat (distinct sel) <? querySampleSize
      then weightedSelection attempts' gs M querySampleSize draw (S k)
             (sel ++ option_list (pick gs (draw k * M)%float))
      else (sel, k)
  end.

(** The sum of the counts of a map. *)
Definition sumCounts (m : gmap G Z) : Z := map_fold (λ _ c s, c + s) 0 m.

End SamplerSpec.

(** The random source once [n] calls have been made in all. *)
Definition rng_at (n : nat) (r : Rand) : Rand :=
  {| rng_floats := rng_floats r; rng_ints := rng_ints r; rng_calls := n |}.

(** ** The aggregation in the words of the specification *)

(** votedCount = tally.size − count(Unknown) *)
Definition votedCountOf (votes : list Opinion) : Z :=
  len votes - len (filter (λ o, o = Unknown) votes).

(** likedSum = count(Like), counted in float64 as the code does. *)
Definition likedSumOf (votes : list Opinion) : float64 :=
  Nat.iter (length (filter (λ o, o = Like) votes)) (λ s, (s + 1)%float) 0%float.

(** ** Engine states and runs used below *)

(** The queue set holds exactly the ids of the queued contexts. *)
Definition queue_consistent (f : FPC) : Prop :=
  ∀ id, id ∈ queueSet f ↔ id ∈ ID <$> queue f.

(** The engines that the public operations produce from a new one. *)
Inductive reachable {G : Type} `{OpinionGiver G} (HadFirstRound : Context → bool)
    : FPC → Prop :=
  | reachable_New (p : Parameters) (rng : Rand) :
      reachable HadFirstRound (New p rng)
  | reachable_SetOpinionGiverRng (f : FPC) (rng : Rand) :
      reachable HadFirstRound f → reachable HadFirstRound (SetOpinionGiverRng f rng)
  | reachable_Vote (f : FPC) (id : string) (objectType : ObjectType) (initOpn : Opinion) :
      reachable HadFirstRound f → reachable HadFirstRound (Vote f id objectType initOpn).1
  | reachable_Round (f f' : FPC) (rand : float64) (world : Oracle G) (err : option error) :
      reachable HadFirstRound f → Round HadFirstRound f rand world = Some (f', err) →
      reachable HadFirstRound f'.

(** [e] was triggered between the states [f] and [f']. *)
Definition emitted (f f' : FPC) (e : Event) : Prop :=
  ∃ new, events f' = events f ++ new ∧ e ∈ new.

(** Givers that like every conflict and dislike every timestamp: the answer
    follows the order of the concatenation of the two id lists.  Giver 0 has
    no mana, every other giver has mana 1. *)
#[local] Instance example_giver : OpinionGiver nat := {|
  GiverID := λ _, "giver"%string;
  Mana := λ g, match g with O => 0%float | S _ => 1%float end;
  Query := λ _ conflictIDs timestampIDs,
    Ok (replicate (length conflictIDs) Like ++ replicate (length timestampIDs) Dislike);
|}.

Definition example_paras : Parameters := {|
  FirstRoundLowerBoundThreshold := 0.5%float;
  FirstRoundUpperBoundThreshold := 0.5%float;
  SubsequentRoundsLowerBoundThreshold := 0.5%float;
  SubsequentRoundsUpperBoundThreshold := 0.5%float;
  EndingRoundsFixedThreshold := 0.5%float;
  QuerySampleSize := 1;
  MaxQuerySampleSize := 3;
  MinOpinionsReceived := 1;
  TotalRoundsCoolingOffPeriod := 0;
  TotalRoundsFinalization := 2;
  TotalRoundsFixedThreshold := 1;
  MaxRoundsPerVoteContext := 5;
|}.

(** A random source whose outcomes alternate between 0.25 and 0.75 as floats
    and count up as integers. *)
Definition example_rng : Rand :=
  {| rng_floats := λ k, if Nat.even k then 0.25%float else 0.75%float;
     rng_ints := λ k, Z.of_nat k;
     rng_calls := 0 |}.

(** A reading of [HadFirstRound] for the runs: one round has ticked. *)
Definition example_HadFirstRound (c : Context) : bool := Rounds c =? 1.

(** The world of a round in which one giver is known and the own mana is 0. *)
Definition one_giver : Oracle nat := mkOracle (Ok [7%nat]) (Ok 0%float).

(** The world of a round in which the supplier knows no giver. *)
Definition no_givers : Oracle nat := mkOracle (Ok []) (Ok 0%float).

(** The world of a round in which the supplier fails. *)
Definition supplier_fails : Oracle nat :=
  mkOracle (Err (ErrExternal "no connection")) (Ok 0%float).

(** [n] rounds in a row in the same world, with the errors they return. *)
Fixpoint rounds {G : Type} `{OpinionGiver G} (HadFirstRound : Context → bool)
    (n : nat) (f : FPC) (rand : float64) (world : Oracle G)
    : option (FPC * list (option error)) :=
  match n with
  | O => Some (f, [])
  | S n' =>
      '(f, errs) ← rounds HadFirstRound n' f rand world;
      '(f, err) ← Round HadFirstRound f rand world;
      Some (f, errs ++ [err])
  end.

(** The engine in which "a" was submitted and [n] rounds met no giver, if no
    round before had succeeded: it has ticked [n] times and done nothing
    else. *)
Definition stuck_after (p : Parameters) (rng : Rand) (n : nat) : FPC :=
  {| events := []; queue := []; queueSet := ∅;
     ctxs := {[ "a"%string := Nat.iter n tick (NewContext "a" ConflictType Like) ]};
     paras := p; lastRoundCompletedSuccessfully := false; opinionGiverRng := rng |}.

(** ** Definitions for the further properties *)

#[global] Instance ObjectType_eq_dec : EqDecision ObjectType.
Proof. solve_decision. Defined.

(** The event that [finalizeOpinions] triggers for a context that leaves the
    registry: Finalized when the context is finalized, Failed otherwise; it
    carries the last opinion and a copy of the context. *)
Definition finalEvent (p : Parameters) (id : string) (voteCtx : Context) : Event :=
  let e := {| EvID := id; EvOpinion := LastOpinion voteCtx; EvCtx := voteCtx |} in
  if IsFinalized (TotalRoundsCoolingOffPeriod p) (TotalRoundsFinalization p) voteCtx
  then Finalized e else Failed e.

(** A context leaves the registry in the finalization pass when it is
    finalized or has reached the cap on rounds. *)
Definition leaves (p : Parameters) (voteCtx : Context) : bool :=
  IsFinalized (TotalRoundsCoolingOffPeriod p) (TotalRoundsFinalization p) voteCtx
  || (MaxRoundsPerVoteContext p <=? Rounds voteCtx).

(** The engine to which a conflict "c" and a timestamp "t" were submitted. *)
Definition two_votes : FPC :=
  (Vote (Vote (New example_paras example_rng) "c" ConflictType Like).1
        "t" TimestampType Dislike).1.

(** [c'] is [c] up to the liked proportion and the weights, the two fields
    that the aggregation writes. *)
Definition same_vote (c c' : Context) : Prop :=
  ID c' = ID c ∧ Type_ c' = Type_ c ∧ Rounds c' = Rounds c ∧ Opinions c' = Opinions c.

(** * Properties *)

(** ** Machine integers *)

Lemma int_wrap_id (z : Z) : is_int z → int_wrap z = z.
Proof.
  unfold is_int, int_wrap, MinInt64, MaxInt64. intros Hz.
  rewrite Z.mod_small; lia.
Qed.

Lemma int_wrap_succ (z : Z) : int_wrap (int_wrap z + 1) = int_wrap (z + 1).
Proof.
  unfold int_wrap.
  replace ((z + 2 ^ 63) `mod` 2 ^ 64 - 2 ^ 63 + 1 + 2 ^ 63)
    with ((z + 2 ^ 63) `mod` 2 ^ 64 + 1) by lia.
  replace (z + 1 + 2 ^ 63) with ((z + 2 ^ 63) + 1) by lia.
  rewrite Zplus_mod_idemp_l. reflexivity.
Qed.

(** ** Bias towards the own opinion *)

Lemma ConvertOpinionToFloat64_negative (o : Opinion) :
  (ConvertOpinionToFloat64 o <? 0)%float = true ↔ o = Unknown.
Proof. destruct o; vm_compute; split; congruence. Qed.

(** C7: the bias returns the liked proportion unchanged when the own weight is
    zero, when the total weight is zero, or when the last own opinion is
    Unknown (the one opinion encoded as a negative scalar); otherwise it
    returns own/total * s + (1 - own/total) * proportionLiked, with s = 1.0
    for Like and s = 0.0 for Dislike. *)
Theorem biasTowardsOwnOpinion_spec (voteCtx : Context) :
  let ownMana := OwnWeight (Weights voteCtx) in
  let totalMana := TotalWeights (Weights voteCtx) in
  let unchanged := biasTowardsOwnOpinion voteCtx = ProportionLiked voteCtx in
  let blended (s : float64) :=
    biasTowardsOwnOpinion voteCtx
    = (ownMana / totalMana * s + (1 - ownMana / totalMana) * ProportionLiked voteCtx)%float in
  ((ownMana =? 0)%float = true → unchanged)
  ∧ ((totalMana =? 0)%float = true → unchanged)
  ∧ ((ConvertOpinionToFloat64 (LastOpinion voteCtx) <? 0)%float = true → unchanged)
  ∧ (LastOpinion voteCtx = Unknown → unchanged)
  ∧ ((ownMana =? 0)%float = false → (totalMana =? 0)%float = false →
     (LastOpinion voteCtx = Like → blended 1%float)
     ∧ (LastOpinion voteCtx = Dislike → blended 0%float)).
Proof.
  cbv zeta. unfold biasTowardsOwnOpinion.
  split; [intros ->; reflexivity|].
  split; [intros ->; rewrite orb_true_r; reflexivity|].
  split; [intros ->; destruct (_ || _); reflexivity|].
  split; [intros ->; destruct (_ || _); reflexivity|].
  intros -> ->. split; intros ->; reflexivity.
Qed.

(** The context of scenario S3: own mana 9 of a total of 10, last opinion
    Like, liked proportion 0. *)
Lemma biasTowardsOwnOpinion_spec_witness :
  let voteCtx := {| ID := "x"; Type_ := ConflictType; ProportionLiked := 0%float; Rounds := 2;
                    Opinions := [Like];
                    Weights := {| OwnWeight := 9%float; TotalWeights := 10%float |} |} in
  biasTowardsOwnOpinion voteCtx = (9 / 10 * 1 + (1 - 9 / 10) * 0)%float.
Proof.
  intros voteCtx.
  destruct (biasTowardsOwnOpinion_spec voteCtx) as (_ & _ & _ & _ & Hb).
  destruct (Hb eq_refl eq_refl) as [Hlike _].
  exact (Hlike eq_refl).
Defined.

(** ** Queue and registry *)

Lemma drain_app (q1 q2 : list Context) (m : gmap string Context) (qs : gset string) :
  drain (q1 ++ q2) m qs = drain q2 (drain q1 m qs).1 (drain q1 m qs).2.
Proof.
  revert m qs. induction q1 as [|c q1 IH]; intros m qs; simpl; [reflexivity|].
  apply IH.
Qed.

Lemma drain_queueSet (q : list Context) (m : gmap string Context) (qs : gset string) :
  (drain q m qs).2 = qs ∖ list_to_set (ID <$> q).
Proof.
  revert m qs. induction q as [|c q IH]; intros m qs; simpl.
  - set_solver.
  - rewrite IH. set_solver.
Qed.

Lemma drain_lookup_None (q : list Context) (m : gmap string Context) (qs : gset string) id :
  (drain q m qs).1 !! id = None ↔ m !! id = None ∧ id ∉ ID <$> q.
Proof.
  revert m qs. induction q as [|c q IH]; intros m qs; simpl.
  - set_solver.
  - rewrite IH, lookup_insert_None. set_solver.
Qed.

Lemma enqueue_queue (f : FPC) : queue (enqueue f) = [].
Proof. unfold enqueue. destruct (drain _ _ _). reflexivity. Qed.

Lemma enqueue_events (f : FPC) : events (enqueue f) = events f.
Proof. unfold enqueue. destruct (drain _ _ _). reflexivity. Qed.

Lemma enqueue_flag (f : FPC) :
  lastRoundCompletedSuccessfully (enqueue f) = lastRoundCompletedSuccessfully f.
Proof. unfold enqueue. destruct (drain _ _ _). reflexivity. Qed.

Lemma enqueue_ctxs (f : FPC) : ctxs (enqueue f) = (drain (queue f) (ctxs f) (queueSet f)).1.
Proof. unfold enqueue. destruct (drain _ _ _). reflexivity. Qed.

Lemma enqueue_queueSet (f : FPC) :
  queueSet (enqueue f) = queueSet f ∖ list_to_set (ID <$> queue f).
Proof.
  unfold enqueue. pose proof (drain_queueSet (queue f) (ctxs f) (queueSet f)) as Hd.
  destruct (drain _ _ _). exact Hd.
Qed.

(** After the queue is drained, a consistent queue set is empty. *)
Lemma enqueue_queueSet_empty (f : FPC) :
  queue_consistent f → queueSet (enqueue f) = ∅.
Proof.
  intros Hq. rewrite enqueue_queueSet. apply set_eq. intros id.
  rewrite elem_of_difference, elem_of_list_to_set, (Hq id). set_solver.
Qed.

Lemma queue_consistent_New (p : Parameters) (rng : Rand) : queue_consistent (New p rng).
Proof. intros id. simpl. set_solver. Qed.

Lemma queue_consistent_enqueue (f : FPC) : queue_consistent f → queue_consistent (enqueue f).
Proof.
  intros Hq id. rewrite enqueue_queueSet_empty, enqueue_queue by done. set_solver.
Qed.

(** What a submission does, by cases on the two membership tests. *)
Lemma Vote_ongoing (f : FPC) id objectType initOpn :
  id ∈ queueSet f ∨ is_Some (ctxs f !! id) →
  Vote f id objectType initOpn = (f, Some (ErrVoteAlreadyOngoing id)).
Proof.
  intros Hon. unfold Vote. repeat case_decide; try reflexivity. tauto.
Qed.

Lemma Vote_fresh (f : FPC) id objectType initOpn :
  id ∉ queueSet f → ctxs f !! id = None →
  Vote f id objectType initOpn =
  ({| events := events f;
      queue := queue f ++ [NewContext id objectType initOpn];
      queueSet := {[id]} ∪ queueSet f;
      ctxs := ctxs f; paras := paras f;
      lastRoundCompletedSuccessfully := lastRoundCompletedSuccessfully f;
      opinionGiverRng := opinionGiverRng f |}, None).
Proof.
  intros Hq Hc. unfold Vote. rewrite decide_False by done.
  rewrite decide_False; [reflexivity|]. rewrite Hc. apply is_Some_None.
Qed.

Lemma queue_consistent_Vote (f : FPC) id objectType initOpn :
  queue_consistent f → queue_consistent (Vote f id objectType initOpn).1.
Proof.
  intros Hq. unfold Vote. repeat case_decide; try done.
  intros i. simpl. rewrite fmap_app. simpl. rewrite elem_of_app, elem_of_union, (Hq i).
  set_solver.
Qed.

(** ** The finalization pass *)

Lemma finalizeOne_cases (p : Parameters) (m : gmap string Context) (evs : list Event)
    (id : string) (c : Context) :
  finalizeOne p (m, evs) (id, c) = (m, evs)
  ∨ (∃ e, EvID e = id
      ∧ finalizeOne p (m, evs) (id, c) = (delete id m, evs ++ [Finalized e]))
  ∨ (∃ e, EvID e = id
      ∧ finalizeOne p (m, evs) (id, c) = (delete id m, evs ++ [Failed e])).
Proof.
  unfold finalizeOne. simpl.
  destruct (IsFinalized _ _ c); [right; left; eexists; split; [|reflexivity]; reflexivity|].
  destruct (_ <=? _); [right; right; eexists; split; [|reflexivity]; reflexivity|].
  left. reflexivity.
Qed.

Lemma finalize_fold (p : Parameters) (l : list (string * Context)) :
  ∀ (m : gmap string Context) (evs : list Event),
    ∃ new, (foldl (finalizeOne p) (m, evs) l).2 = evs ++ new
      ∧ (∀ ev, ev ∈ new → ∃ e, (ev = Finalized e ∨ ev = Failed e)
            ∧ (foldl (finalizeOne p) (m, evs) l).1 !! EvID e = None)
      ∧ (∀ id, m !! id = None → (foldl (finalizeOne p) (m, evs) l).1 !! id = None).
Proof.
  induction l as [|[id c] l IH]; intros m evs; cbn [foldl].
  - exists []. rewrite app_nil_r. set_solver.
  - destruct (finalizeOne_cases p m evs id c) as [->|[(e & He & ->)|(e & He & ->)]].
    + apply IH.
    + destruct (IH (delete id m) (evs ++ [Finalized e])) as (new & Hev & Hnew & Hnone).
      exists (Finalized e :: new). rewrite Hev, <- app_assoc. split; [reflexivity|]. split.
      * intros ev [->|Hin]%elem_of_cons; [|auto].
        exists e. split; [left; reflexivity|]. rewrite He. apply Hnone, lookup_delete_eq.
      * intros i Hi. apply Hnone. rewrite lookup_delete_None. auto.
    + destruct (IH (delete id m) (evs ++ [Failed e])) as (new & Hev & Hnew & Hnone).
      exists (Failed e :: new). rewrite Hev, <- app_assoc. split; [reflexivity|]. split.
      * intros ev [->|Hin]%elem_of_cons; [|auto].
        exists e. split; [right; reflexivity|]. rewrite He. apply Hnone, lookup_delete_eq.
      * intros i Hi. apply Hnone. rewrite lookup_delete_None. auto.
Qed.

Lemma finalizeOpinions_events (f : FPC) :
  ∃ new, events (finalizeOpinions f) = events f ++ new
    ∧ (∀ ev, ev ∈ new → ∃ e, (ev = Finalized e ∨ ev = Failed e)
          ∧ ctxs (finalizeOpinions f) !! EvID e = None)
    ∧ (∀ id, ctxs f !! id = None → ctxs (finalizeOpinions f) !! id = None).
Proof.
  unfold finalizeOpinions.
  pose proof (finalize_fold (paras f) (map_to_list (ctxs f)) (ctxs f) (events f)) as Hf.
  destruct (foldl _ _ _) as [m evs]. exact Hf.
Qed.

Lemma finalizeOpinions_frame (f : FPC) :
  queue (finalizeOpinions f) = queue f ∧ queueSet (finalizeOpinions f) = queueSet f
  ∧ lastRoundCompletedSuccessfully (finalizeOpinions f) = lastRoundCompletedSuccessfully f
  ∧ paras (finalizeOpinions f) = paras f.
Proof. unfold finalizeOpinions. destruct (foldl _ _ _). done. Qed.

Lemma finalizeOpinions_empty (f : FPC) : ctxs f = ∅ → finalizeOpinions f = f.
Proof.
  intros He. unfold finalizeOpinions. rewrite He, map_to_list_empty. simpl.
  destruct f; simpl in *; congruence.
Qed.

(** ** Aggregation of the tallies *)

Lemma countVotes_spec (votes : list Opinion) (votedCount : Z) (likedSum : float64) :
  countVotes votes votedCount likedSum
  = (votedCount - len (filter (λ o, o = Unknown) votes),
     Nat.iter (length (filter (λ o, o = Like) votes)) (λ s, (s + 1)%float) likedSum).
Proof.
  revert votedCount likedSum. unfold len.
  induction votes as [|o votes IH]; intros votedCount likedSum; simpl.
  - f_equal. lia.
  - destruct o; rewrite IH.
    + rewrite (filter_cons_True (λ o, o = Like)) by done.
      rewrite (filter_cons_False (λ o, o = Unknown)) by done.
      cbn [length]. rewrite Nat.iter_succ_r. reflexivity.
    + rewrite (filter_cons_False (λ o, o = Like)) by done.
      rewrite (filter_cons_False (λ o, o = Unknown)) by done. reflexivity.
    + rewrite (filter_cons_False (λ o, o = Like)) by done.
      rewrite (filter_cons_True (λ o, o = Unknown)) by done.
      cbn [length]. f_equal. lia.
Qed.

Lemma countVotes_tally (votes : list Opinion) :
  countVotes votes (len votes) 0%float = (votedCountOf votes, likedSumOf votes).
Proof. rewrite countVotes_spec. reflexivity. Qed.

(** One turn of the aggregation loop, by cases on the minimum. *)
Lemma aggregateOne_skip (p : Parameters) ownMana totalMana (m : gmap string Context) id votes :
  votedCountOf votes < MinOpinionsReceived p →
  aggregateOne p ownMana totalMana m (id, votes) = Some m.
Proof.
  intros Hlt. unfold aggregateOne. rewrite countVotes_tally.
  destruct (Z.ltb_spec (votedCountOf votes) (MinOpinionsReceived p)); [reflexivity|lia].
Qed.

Lemma aggregateOne_update (p : Parameters) ownMana totalMana (m : gmap string Context) id votes :
  MinOpinionsReceived p <= votedCountOf votes →
  aggregateOne p ownMana totalMana m (id, votes)
  = voteCtx ← m !! id;
    Some (<[id := setLiked {| OwnWeight := ownMana; TotalWeights := totalMana |}
                   (likedSumOf votes / float64_of_int (votedCountOf votes))%float voteCtx]> m).
Proof.
  intros Hge. unfold aggregateOne. rewrite countVotes_tally.
  destruct (Z.ltb_spec (votedCountOf votes) (MinOpinionsReceived p)); [lia|reflexivity].
Qed.

Lemma aggregateOne_dom (p : Parameters) ownMana totalMana (m m' : gmap string Context) entry :
  aggregateOne p ownMana totalMana m entry = Some m' →
  ∀ id, m' !! id = None ↔ m !! id = None.
Proof.
  destruct entry as [id0 votes]. intros Hagg id.
  destruct (Z.lt_ge_cases (votedCountOf votes) (MinOpinionsReceived p)) as [Hlt|Hge].
  - rewrite aggregateOne_skip in Hagg by done. by simplify_eq.
  - rewrite aggregateOne_update in Hagg by done.
    destruct (m !! id0) as [c|] eqn:Hc; simplify_eq/=.
    rewrite lookup_insert_None. split; [tauto|]. intros Hn. split; [done|]. congruence.
Qed.

Lemma aggregate_loop_dom (p : Parameters) ownMana totalMana (l : list (string * list Opinion)) :
  ∀ m m', foldl_opt (aggregateOne p ownMana totalMana) m l = Some m' →
          ∀ id, m' !! id = None ↔ m !! id = None.
Proof.
  induction l as [|entry l IH]; intros m m' Hf id; simpl in Hf.
  - by simplify_eq.
  - destruct (aggregateOne p ownMana totalMana m entry) as [m1|] eqn:H1; simplify_eq/=.
    rewrite (IH _ _ Hf). eapply aggregateOne_dom; eauto.
Qed.

Lemma aggregate_loop (p : Parameters) ownMana totalMana (l : list (string * list Opinion)) :
  ∀ m, NoDup l.*1 →
    (∀ id votes, (id, votes) ∈ l → MinOpinionsReceived p <= votedCountOf votes →
                 is_Some (m !! id)) →
    ∃ m', foldl_opt (aggregateOne p ownMana totalMana) m l = Some m'
      ∧ (∀ id, id ∉ l.*1 → m' !! id = m !! id)
      ∧ (∀ id votes, (id, votes) ∈ l →
           (votedCountOf votes < MinOpinionsReceived p → m' !! id = m !! id)
           ∧ (MinOpinionsReceived p <= votedCountOf votes →
              ∃ voteCtx, m !! id = Some voteCtx
                ∧ m' !! id = Some (setLiked {| OwnWeight := ownMana; TotalWeights := totalMana |}
                                     (likedSumOf votes / float64_of_int (votedCountOf votes))%float
                                     voteCtx))).
Proof.
  induction l as [|[id0 votes0] l IH]; intros m Hnd Hpre.
  - exists m. split; [reflexivity|]. split; [done|]. intros id votes Hin. by apply elem_of_nil in Hin.
  - rewrite fmap_cons in Hnd. apply NoDup_cons in Hnd as [Hnotin Hnd]. cbn [foldl_opt fst] in *.
    destruct (Z.lt_ge_cases (votedCountOf votes0) (MinOpinionsReceived p)) as [Hlt|Hge].
    + rewrite aggregateOne_skip by done. simpl.
      destruct (IH m Hnd) as (m' & Hm' & Hframe & Hin).
      { intros id votes Hel. apply Hpre. by right. }
      exists m'. split; [done|]. split.
      { intros id Hid. apply not_elem_of_cons in Hid as [Hne Hid]. by apply Hframe. }
      intros id votes [Heq|Hel]%elem_of_cons; [|by apply Hin].
      simplify_eq. split; [intros _; by apply Hframe|lia].
    + rewrite aggregateOne_update by done.
      destruct (Hpre id0 votes0) as [c Hc]; [by left|done|]. rewrite Hc. simpl.
      set (c' := setLiked _ _ c).
      destruct (IH (<[id0 := c']> m) Hnd) as (m' & Hm' & Hframe & Hin).
      { intros id votes Hel Hmin. rewrite lookup_insert_is_Some. right. split.
        - intros Heq. apply Hnotin. apply list_elem_of_fmap. exists (id, votes). by rewrite Heq.
        - apply (Hpre id votes); [by right|done]. }
      exists m'. split; [done|]. split.
      { intros id Hid. apply not_elem_of_cons in Hid as [Hne Hid].
        rewrite Hframe by done. apply lookup_insert_ne. congruence. }
      intros id votes [Heq|Hel]%elem_of_cons.
      * simplify_eq. split; [lia|]. intros _. exists c. split; [done|].
        rewrite Hframe by done. apply lookup_insert_eq.
      * assert (id0 ≠ id) as Hne.
        { intros Heq. apply Hnotin. apply list_elem_of_fmap. exists (id, votes). by rewrite Heq. }
        destruct (Hin id votes Hel) as [Hskip Hupd].
        rewrite lookup_insert_ne in Hskip, Hupd by done. done.
Qed.

(** C9: in the aggregation pass, an id whose tally has a voted count (tally
    size minus Unknown answers) below MinOpinionsReceived keeps its context,
    hence its proportionLiked and its weights, unchanged; for an id that meets
    the minimum the weights become (ownMana, totalMana) and proportionLiked
    becomes likedSum / votedCount.  The pass runs to its end whenever the ids
    that meet the minimum are in the registry. *)
Theorem aggregate_spec (p : Parameters) (ownMana totalMana : float64)
    (voteMap : gmap string (list Opinion)) (m : gmap string Context) :
  (∀ id votes, voteMap !! id = Some votes → MinOpinionsReceived p <= votedCountOf votes →
               is_Some (m !! id)) →
  ∃ m', aggregate p ownMana totalMana voteMap m = Some m'
    ∧ ∀ id votes, voteMap !! id = Some votes →
        (votedCountOf votes < MinOpinionsReceived p →
           m' !! id = m !! id
           ∧ ProportionLiked <$> m' !! id = ProportionLiked <$> m !! id
           ∧ Weights <$> m' !! id = Weights <$> m !! id)
        ∧ (MinOpinionsReceived p <= votedCountOf votes →
           ∃ voteCtx voteCtx', m !! id = Some voteCtx ∧ m' !! id = Some voteCtx'
             ∧ Weights voteCtx' = {| OwnWeight := ownMana; TotalWeights := totalMana |}
             ∧ ProportionLiked voteCtx'
               = (likedSumOf votes / float64_of_int (votedCountOf votes))%float
             ∧ voteCtx' = setLiked (Weights voteCtx') (ProportionLiked voteCtx') voteCtx).
Proof.
  intros Hpre. unfold aggregate.
  destruct (aggregate_loop p ownMana totalMana (map_to_list voteMap) m) as (m' & Hm' & _ & Hin).
  { apply NoDup_fst_map_to_list. }
  { intros id votes Hel. apply Hpre. by apply elem_of_map_to_list. }
  exists m'. split; [done|]. intros id votes Hv.
  apply elem_of_map_to_list in Hv. destruct (Hin id votes Hv) as [Hskip Hupd]. split.
  - intros Hlt. rewrite (Hskip Hlt). done.
  - intros Hge. destruct (Hupd Hge) as (c & Hc & Hc'). eauto 10.
Qed.

(** A tally of two Like and one Unknown meets a minimum of 1; a tally of one
    Unknown does not. *)
Lemma aggregate_spec_witness :
  let c := NewContext "a" ConflictType Like in
  let d := NewContext "b" TimestampType Dislike in
  let voteMap : gmap string (list Opinion) := {[ "a" := [Like; Unknown; Like]; "b" := [Unknown] ]} in
  let m : gmap string Context := {[ "a" := c; "b" := d ]} in
  ∃ m', aggregate example_paras 2%float 7%float voteMap m = Some m'
    ∧ m' !! "b" = Some d
    ∧ (ProportionLiked <$> m' !! "a") = Some (2 / 2)%float
    ∧ (Weights <$> m' !! "a") = Some {| OwnWeight := 2%float; TotalWeights := 7%float |}.
Proof.
  intros c d voteMap m.
  destruct (aggregate_spec example_paras 2%float 7%float voteMap m) as (m' & Hm' & Hspec).
  { intros id votes Hv _. unfold voteMap, m in *.
    apply lookup_insert_Some in Hv as [[<- _]|[_ Hv]]; [by eexists|].
    apply lookup_singleton_Some in Hv as [<- _]. by eexists. }
  exists m'. split; [exact Hm'|].
  destruct (Hspec "b" [Unknown] eq_refl) as [Hb _].
  destruct (Hspec "a" [Like; Unknown; Like] eq_refl) as [_ Ha].
  destruct Hb as (Hb & _); [vm_compute; reflexivity|].
  destruct Ha as (x & x' & Hx & Hx' & Hw & Hp & _); [vm_compute; congruence|].
  rewrite Hb, Hx'. simpl. rewrite Hw, Hp. done.
Defined.

(** ** What a round leaves alone *)

Section RoundFrame.
Context {G : Type} `{OpinionGiver G}.
Variable HadFirstRound : Context → bool.

(** The query stage triggers no event, leaves the queue and the flag alone
    and neither adds an id to the registry nor removes one. *)
Lemma queryOpinions_frame (f f' : FPC) (world : Oracle G) res :
  queryOpinions f world = Some (f', res) →
  events f' = events f ∧ queue f' = queue f ∧ queueSet f' = queueSet f
  ∧ lastRoundCompletedSuccessfully f' = lastRoundCompletedSuccessfully f
  ∧ paras f' = paras f
  ∧ ∀ id, ctxs f' !! id = None ↔ ctxs f !! id = None.
Proof.
  unfold queryOpinions. intros Hq.
  destruct (voteContextIDs f) as [conflictIDs timestampIDs].
  destruct (_ && _); [by simplify_eq|].
  destruct (opinionGiverFunc world) as [opinionGivers|e]; [|by simplify_eq].
  destruct (bool_decide _); [by simplify_eq|].
  destruct (ManaBasedSampling _ _ _ _) as [[[toQuery total] rng]|]; simplify_eq/=.
  destruct (ownWeightRetrieverFunc world) as [ownMana|e]; [|by simplify_eq].
  destruct (foldl_opt _ _ _) as [[voteMap allQueried]|]; simplify_eq/=.
  destruct (aggregate _ _ _ _ _) as [m|] eqn:Hagg; simplify_eq/=.
  repeat split; try done; intros Hn; eapply aggregate_loop_dom in Hagg; by apply Hagg.
Qed.

Lemma queryOpinions_nothing (f : FPC) (world : Oracle G) :
  ctxs f = ∅ → queryOpinions f world = Some (f, Ok []).
Proof.
  intros He. unfold queryOpinions, voteContextIDs. rewrite He, map_to_list_empty. reflexivity.
Qed.

(** The events of a round: those of the finalization pass, each of which
    removes its id from the registry for good, then RoundExecuted if the
    query stage succeeds. *)
Lemma Round_events (f f' : FPC) (rand : float64) (world : Oracle G) err :
  Round HadFirstRound f rand world = Some (f', err) →
  ∃ new executed, events f' = events f ++ new ++ executed
    ∧ (∀ ev, ev ∈ new → ∃ e, (ev = Finalized e ∨ ev = Failed e) ∧ ctxs f' !! EvID e = None)
    ∧ (if err is None then ∃ s, executed = [RoundExecuted s] else executed = []).
Proof.
  unfold Round. intros HR.
  set (f1 := enqueue f) in *.
  set (f2 := if lastRoundCompletedSuccessfully f1
             then finalizeOpinions (formOpinions HadFirstRound f1 rand) else f1) in *.
  assert (∃ new, events f2 = events f ++ new
            ∧ ∀ ev, ev ∈ new → ∃ e, (ev = Finalized e ∨ ev = Failed e)
                                    ∧ ctxs f2 !! EvID e = None) as (new & Hev & Hnew).
  { unfold f2. destruct (lastRoundCompletedSuccessfully f1).
    - destruct (finalizeOpinions_events (formOpinions HadFirstRound f1 rand))
        as (new & Hev & Hnew & _).
      exists new. split; [|done]. rewrite Hev. unfold f1. simpl. by rewrite enqueue_events.
    - exists []. unfold f1. rewrite enqueue_events, app_nil_r. split; [done|].
      intros ev Hin. by apply elem_of_nil in Hin. }
  destruct (queryOpinions (tickAll f2) world) as [[f3 res]|] eqn:Hq; simplify_eq/=.
  apply queryOpinions_frame in Hq as (Hev3 & _ & _ & _ & _ & Hdom).
  assert (∀ ev, ev ∈ new → ∃ e, (ev = Finalized e ∨ ev = Failed e)
                                ∧ ctxs f3 !! EvID e = None) as Hnew3.
  { intros ev Hin. destruct (Hnew ev Hin) as (e & He & Hnone). exists e. split; [done|].
    apply Hdom. simpl. by rewrite lookup_fmap, Hnone. }
  exists new. destruct res as [queried|e]; simplify_eq/=.
  - eexists. rewrite Hev3, Hev, <- app_assoc. eauto.
  - exists []. rewrite Hev3, Hev, app_nil_r. done.
Qed.

Lemma Round_queue (f f' : FPC) (rand : float64) (world : Oracle G) err :
  Round HadFirstRound f rand world = Some (f', err) →
  queue f' = [] ∧ queueSet f' = queueSet f ∖ list_to_set (ID <$> queue f).
Proof.
  unfold Round. intros HR.
  destruct (queryOpinions _ world) as [[f3 res]|] eqn:Hq; simplify_eq/=.
  apply queryOpinions_frame in Hq as (_ & Hqu & Hqs & _).
  assert (queue f3 = [] ∧ queueSet f3 = queueSet f ∖ list_to_set (ID <$> queue f)) as [??].
  { rewrite Hqu, Hqs. simpl.
    destruct (lastRoundCompletedSuccessfully (enqueue f)).
    - destruct (finalizeOpinions_frame (formOpinions HadFirstRound (enqueue f) rand))
        as (-> & -> & _). simpl. by rewrite enqueue_queue, enqueue_queueSet.
    - by rewrite enqueue_queue, enqueue_queueSet. }
  destruct res; by simplify_eq/=.
Qed.

(** Rounds keep the queue set consistent. *)
Lemma queue_consistent_Round (f f' : FPC) (rand : float64) (world : Oracle G) err :
  queue_consistent f → Round HadFirstRound f rand world = Some (f', err) →
  queue_consistent f'.
Proof.
  intros Hq HR. apply Round_queue in HR as [Hqu Hqs]. intros id.
  rewrite Hqu, Hqs, elem_of_difference, elem_of_list_to_set, (Hq id). set_solver.
Qed.

End RoundFrame.

(** ** Submission and lookup *)

Section Submission.
Context {G : Type} `{OpinionGiver G}.
Variable HadFirstRound : Context → bool.

(** On every engine that the operations produce, the queue set holds
    exactly the ids of the queue and no queued id is in the registry. *)
Lemma reachable_queue_consistent (f : FPC) :
  reachable HadFirstRound f →
  queue_consistent f ∧ ∀ id, id ∈ queueSet f → ctxs f !! id = None.
Proof.
  induction 1 as [p rng|f rng _ [IHq IHd]|f id objectType initOpn _ [IHq IHd]
                 |f f' rand world err _ [IHq IHd] HR].
  - split; [apply queue_consistent_New|]. intros id Hin. by apply not_elem_of_empty in Hin.
  - done.
  - split; [by apply queue_consistent_Vote|].
    unfold Vote. repeat case_decide; try done. simpl.
    intros i [->%elem_of_singleton|Hin]%elem_of_union; [|by apply IHd].
    destruct (ctxs f !! id) eqn:Hc; [|done]. exfalso. eauto.
  - split; [by eapply queue_consistent_Round|].
    destruct (Round_queue _ _ _ _ _ _ HR) as [_ Hqs]. intros id.
    rewrite Hqs, elem_of_difference, elem_of_list_to_set, <- (IHq id). tauto.
Qed.

(** C5: a submission fails with VoteAlreadyOngoing exactly when the id is in
    the queue or in the registry, and then changes nothing; otherwise it
    appends a fresh context holding the initial opinion only to the queue
    and records the id in the queue set.  An id whose Finalized event a
    round has triggered can be submitted again after that round. *)
Theorem Vote_spec (f : FPC) (id : string) (objectType : ObjectType) (initOpn : Opinion) :
  queue_consistent f →
  let ongoing := id ∈ ID <$> queue f ∨ is_Some (ctxs f !! id) in
  (ongoing → Vote f id objectType initOpn = (f, Some (ErrVoteAlreadyOngoing id)))
  ∧ (¬ ongoing →
     ∃ f', Vote f id objectType initOpn = (f', None)
       ∧ queue f' = queue f ++ [NewContext id objectType initOpn]
       ∧ Opinions (NewContext id objectType initOpn) = [initOpn]
       ∧ queueSet f' = {[id]} ∪ queueSet f
       ∧ ctxs f' = ctxs f
       ∧ queue_consistent f')
  ∧ (∀ rand (world : Oracle G) f1 err e,
       Round HadFirstRound f rand world = Some (f1, err) →
       emitted f f1 (Finalized e) → EvID e = id →
       (Vote f1 id objectType initOpn).2 = None).
Proof.
  intros Hq ongoing. subst ongoing. split; [|split].
  - intros Hon. apply Vote_ongoing. rewrite (Hq id). exact Hon.
  - intros Hfresh.
    assert (id ∉ queueSet f) as Hnq by (rewrite (Hq id); tauto).
    assert (ctxs f !! id = None) as Hnc.
    { destruct (ctxs f !! id) eqn:Hc; [|done]. exfalso. apply Hfresh. right. by eexists. }
    eexists. split; [by apply Vote_fresh|]. simpl. do 4 (split; [done|]).
    pose proof (queue_consistent_Vote f id objectType initOpn Hq) as Hq'.
    rewrite (Vote_fresh _ _ _ _ Hnq Hnc) in Hq'. exact Hq'.
  - intros rand world f1 err e HR (new & Hev & Hin) <-.
    destruct (Round_events _ _ _ _ _ _ HR) as (new' & executed & Hev' & Hnew' & Hex).
    destruct (Round_queue _ _ _ _ _ _ HR) as [_ Hqs].
    rewrite Hev' in Hev. apply app_inv_head in Hev. subst new.
    apply elem_of_app in Hin as [Hin|Hin].
    + destruct (Hnew' _ Hin) as (e' & [He'|He'] & Hnone); simplify_eq.
      rewrite Vote_fresh; [done| |done].
      rewrite Hqs, elem_of_difference, elem_of_list_to_set, (Hq (EvID e')). tauto.
    + destruct err; [subst executed; by apply elem_of_nil in Hin|].
      destruct Hex as [s ->]. apply list_elem_of_singleton in Hin. discriminate.
Qed.

(** C6: the lookup returns the last opinion of the context that the registry
    holds for the id, and fails with VotingNotFound when the registry holds
    none, also when the id is queued and not promoted yet: right after a
    successful submission the lookup fails, and it succeeds once the queue
    has been drained into the registry. *)
Theorem IntermediateOpinion_spec (f : FPC) (id : string) :
  (∀ voteCtx, ctxs f !! id = Some voteCtx →
              IntermediateOpinion f id = (LastOpinion voteCtx, None))
  ∧ (ctxs f !! id = None → IntermediateOpinion f id = (Unknown, Some (ErrVotingNotFound id)))
  ∧ (∀ objectType initOpn f',
       Vote f id objectType initOpn = (f', None) →
       id ∈ ID <$> queue f'
       ∧ IntermediateOpinion f' id = (Unknown, Some (ErrVotingNotFound id))
       ∧ IntermediateOpinion (enqueue f') id = (initOpn, None)).
Proof.
  split; [|split].
  - intros c Hc. unfold IntermediateOpinion. by rewrite Hc.
  - intros Hc. unfold IntermediateOpinion. by rewrite Hc.
  - intros objectType initOpn f' HV. unfold Vote in HV.
    repeat case_decide; simplify_eq/=.
    assert (ctxs f !! id = None) as Hc.
    { destruct (ctxs f !! id) eqn:Hc; [|done]. exfalso. eauto. }
    split; [|split].
    + rewrite fmap_app. apply elem_of_app. right. simpl. by left.
    + unfold IntermediateOpinion. simpl. by rewrite Hc.
    + unfold IntermediateOpinion. rewrite enqueue_ctxs. simpl.
      rewrite drain_app. simpl. by rewrite lookup_insert_eq.
Qed.

End Submission.

(** A fresh engine: "a" is submitted, and cannot be submitted again while it
    is queued; after three rounds with a giver that likes it, its Finalized
    event has been triggered and "a" is submitted anew. *)
Lemma Vote_spec_witness :
  ∃ f1 f2 f3 f4 e,
    Vote (New example_paras example_rng) "a" ConflictType Like = (f1, None)
    ∧ Vote f1 "a" ConflictType Dislike = (f1, Some (ErrVoteAlreadyOngoing "a"))
    ∧ rounds example_HadFirstRound 2 f1 0.5%float one_giver = Some (f2, [None; None])
    ∧ Round example_HadFirstRound f2 0.5%float one_giver = Some (f3, None)
    ∧ emitted f2 f3 (Finalized e) ∧ EvID e = "a"%string
    ∧ Vote f3 "a" ConflictType Dislike = (f4, None).
Proof.
  destruct (Vote_spec (G := nat) example_HadFirstRound (New example_paras example_rng)
              "a" ConflictType Like (queue_consistent_New _ _)) as (_ & Hfresh & _).
  destruct Hfresh as (f1 & HV & Hqu & _ & _ & _ & Hq1).
  { intros [Hin|[c Hc]]; [by apply elem_of_nil in Hin|]. vm_compute in Hc. discriminate. }
  destruct (Vote_spec (G := nat) example_HadFirstRound f1 "a" ConflictType Dislike Hq1)
    as (Hon & _).
  assert (Vote f1 "a" ConflictType Dislike = (f1, Some (ErrVoteAlreadyOngoing "a"))) as HV1.
  { apply Hon. left. rewrite Hqu. simpl. by left. }
  assert (f1 = (Vote (New example_paras example_rng) "a" ConflictType Like).1) as Hf1
    by (by rewrite HV).
  destruct (rounds example_HadFirstRound 2 f1 0.5%float one_giver) as [[f2 errs]|] eqn:H2;
    [|rewrite Hf1 in H2; vm_compute in H2; discriminate].
  pose proof H2 as Hr2. rewrite Hf1 in H2. vm_compute in H2. injection H2 as Hf2 <-.
  destruct (Round example_HadFirstRound f2 0.5%float one_giver) as [[f3 err]|] eqn:H3;
    [|rewrite <- Hf2 in H3; vm_compute in H3; discriminate].
  assert (queue_consistent f2) as Hq2.
  { assert (queueSet f2 = ∅ ∧ queue f2 = []) as [Hs Hq] by (by rewrite <- Hf2).
    intros id. rewrite Hs, Hq. split; [intros Hin; by apply not_elem_of_empty in Hin|].
    intros Hin. by apply elem_of_nil in Hin. }
  destruct (Vote_spec (G := nat) example_HadFirstRound f2 "a" ConflictType Dislike Hq2)
    as (_ & _ & Hagain).
  assert (∃ e, emitted f2 f3 (Finalized e) ∧ EvID e = "a"%string ∧ err = None)
    as (e & Hem & He & ->).
  { pose proof H3 as H3'. rewrite <- Hf2 in H3'. vm_compute in H3'.
    injection H3' as Hf3 <-. rewrite <- Hf3, <- Hf2.
    eexists. split; [|split; [|reflexivity]].
    - eexists. split; [reflexivity|]. apply list_elem_of_here.
    - reflexivity. }
  specialize (Hagain 0.5%float one_giver f3 None e H3 Hem He).
  destruct (Vote f3 "a" ConflictType Dislike) as [f4 o] eqn:H4. simpl in Hagain. subst o.
  exists f1, f2, f3, f4, e. done.
Defined.

Lemma IntermediateOpinion_spec_witness :
  let f := (Vote (New example_paras example_rng) "a" ConflictType Like).1 in
  IntermediateOpinion f "a" = (Unknown, Some (ErrVotingNotFound "a"))
  ∧ IntermediateOpinion (enqueue f) "a" = (Like, None).
Proof.
  intros f.
  destruct (IntermediateOpinion_spec (New example_paras example_rng) "a") as (_ & _ & Hq).
  destruct (Hq ConflictType Like f) as (_ & H1 & H2); [reflexivity|].
  split; [exact H1|exact H2].
Defined.

(** ** Rounds *)

Lemma enqueue_nothing (f : FPC) : queue f = [] → enqueue f = f.
Proof. intros Hq. unfold enqueue. rewrite Hq. simpl. destruct f; simpl in *; congruence. Qed.

Lemma Rounds_ticks (n : nat) (c : Context) :
  Rounds c = 0 → Rounds (Nat.iter n tick c) = int_wrap (Z.of_nat n).
Proof.
  intros H0. induction n as [|n IH].
  - simpl. rewrite H0. reflexivity.
  - rewrite Nat.iter_succ. unfold tick at 1. cbn [Rounds]. rewrite IH, int_wrap_succ.
    f_equal. lia.
Qed.

(** The ids collected by [voteContextIDs]: a context of a recognised type
    contributes its id. *)
Lemma voteContextIDs_fold (l : list (string * Context)) :
  ∀ (acc : list string * list string) id c,
    (id, c) ∈ l → Type_ c = ConflictType ∨ Type_ c = TimestampType →
    let r := foldl (λ (acc : list string * list string) (entry : string * Context),
                      match Type_ entry.2 with
                      | ConflictType => (acc.1 ++ [entry.1], acc.2)
                      | TimestampType => (acc.1, acc.2 ++ [entry.1])
                      | OtherType _ => acc
                      end) acc l in
    r.1 ++ r.2 ≠ [].
Proof.
  induction l as [|[id0 c0] l IH]; intros acc id c Hin Hty; [by apply elem_of_nil in Hin|].
  cbn [foldl]. apply elem_of_cons in Hin as [Heq|Hin].
  - simplify_eq. clear IH.
    assert (∀ (l : list (string * Context)) (acc : list string * list string),
              acc.1 ++ acc.2 ≠ [] →
              let r := foldl (λ (acc : list string * list string) (entry : string * Context),
                      match Type_ entry.2 with
                      | ConflictType => (acc.1 ++ [entry.1], acc.2)
                      | TimestampType => (acc.1, acc.2 ++ [entry.1])
                      | OtherType _ => acc
                      end) acc l in
              r.1 ++ r.2 ≠ []) as Hgrow.
    { clear. induction l as [|[i d] l IH]; intros acc Hacc; [done|].
      cbn [foldl]. apply IH. simpl. destruct (Type_ d); simpl; [| |done].
      - intros Hnil. apply app_eq_nil in Hnil as [Hnil _]. by apply app_eq_nil in Hnil as [_ ?].
      - intros Hnil. apply app_eq_nil in Hnil as [_ Hnil]. by apply app_eq_nil in Hnil as [_ ?]. }
    apply Hgrow. simpl. destruct Hty as [->| ->]; simpl.
    + intros Hnil. apply app_eq_nil in Hnil as [Hnil _]. by apply app_eq_nil in Hnil as [_ ?].
    + intros Hnil. apply app_eq_nil in Hnil as [_ Hnil]. by apply app_eq_nil in Hnil as [_ ?].
  - by apply (IH _ id c).
Qed.

Lemma voteContextIDs_nonempty (f : FPC) id c :
  ctxs f !! id = Some c → Type_ c = ConflictType ∨ Type_ c = TimestampType →
  (voteContextIDs f).1 ++ (voteContextIDs f).2 ≠ [].
Proof.
  intros Hc Hty. unfold voteContextIDs.
  apply (voteContextIDs_fold _ _ id c); [by apply elem_of_map_to_list|done].
Qed.

Section Rounds.
Context {G : Type} `{OpinionGiver G}.
Variable HadFirstRound : Context → bool.

Lemma queryOpinions_no_givers (f : FPC) (world : Oracle G) id c :
  ctxs f !! id = Some c → Type_ c = ConflictType ∨ Type_ c = TimestampType →
  opinionGiverFunc world = Ok [] →
  queryOpinions f world = Some (f, Err ErrNoOpinionGiversAvailable).
Proof.
  intros Hc Hty Hw. unfold queryOpinions.
  pose proof (voteContextIDs_nonempty f id c Hc Hty) as Hne.
  destruct (voteContextIDs f) as [conflictIDs timestampIDs]. simpl in Hne.
  assert (bool_decide (len conflictIDs = 0) && bool_decide (len timestampIDs = 0) = false)
    as ->.
  { apply andb_false_iff. unfold len.
    destruct conflictIDs; [|left; apply bool_decide_eq_false; simpl; lia].
    destruct timestampIDs; [done|right; apply bool_decide_eq_false; simpl; lia]. }
  rewrite Hw. reflexivity.
Qed.

(** A round that starts with the flag down and meets no giver only drains
    the queue and ticks. *)
Lemma Round_no_givers_flag_down (f : FPC) (rand : float64) (world : Oracle G) id c :
  lastRoundCompletedSuccessfully f = false →
  ctxs (enqueue f) !! id = Some c → Type_ c = ConflictType ∨ Type_ c = TimestampType →
  opinionGiverFunc world = Ok [] →
  Round HadFirstRound f rand world
  = Some (tickAll (enqueue f), Some ErrNoOpinionGiversAvailable).
Proof.
  intros Hflag Hc Hty Hw. unfold Round. rewrite enqueue_flag, Hflag.
  rewrite (queryOpinions_no_givers (tickAll (enqueue f)) world id (tick c)); [done| |done|done].
  simpl. by rewrite lookup_fmap, Hc.
Qed.

(** C3, as the code has it: with an empty queue and an empty registry a
    round returns no error, raises the flag and triggers one RoundExecuted
    event, which carries no active context and no queried opinion. *)
Theorem Round_nothing_submitted (f : FPC) (rand : float64) (world : Oracle G) :
  queue f = [] → ctxs f = ∅ →
  Round HadFirstRound f rand world
  = Some ({| events := events f ++ [RoundExecuted {| RandUsed := rand;
                                                     ActiveVoteContexts := ∅;
                                                     QueriedOpinions_ := [] |}];
             queue := []; queueSet := queueSet f; ctxs := ∅; paras := paras f;
             lastRoundCompletedSuccessfully := true;
             opinionGiverRng := opinionGiverRng f |}, None).
Proof.
  intros Hq Hc. unfold Round. rewrite (enqueue_nothing f Hq).
  assert ((if lastRoundCompletedSuccessfully f
           then finalizeOpinions (formOpinions HadFirstRound f rand) else f) = f) as ->.
  { destruct (lastRoundCompletedSuccessfully f) eqn:Hflag; [|done].
    assert (formOpinions HadFirstRound f rand = f) as ->.
    { unfold formOpinions, set_ctxs. rewrite Hc, fmap_empty.
      destruct f; simpl in *; congruence. }
    by apply finalizeOpinions_empty. }
  assert (tickAll f = f) as ->.
  { unfold tickAll, set_ctxs. rewrite Hc, fmap_empty. destruct f; simpl in *; congruence. }
  rewrite queryOpinions_nothing by done. simpl. by rewrite Hq, Hc.
Qed.

End Rounds.

Lemma Round_nothing_submitted_witness :
  ∃ f', Round example_HadFirstRound (New example_paras example_rng) 0.5%float no_givers
        = Some (f', None)
    ∧ lastRoundCompletedSuccessfully f' = true
    ∧ events f' = [RoundExecuted {| RandUsed := 0.5%float; ActiveVoteContexts := ∅;
                                    QueriedOpinions_ := [] |}].
Proof.
  eexists. split.
  - apply (Round_nothing_submitted example_HadFirstRound (New example_paras example_rng));
      reflexivity.
  - split; reflexivity.
Defined.

(** C3, as the specification has it, fails on a fresh engine: the round
    returns no error and triggers RoundExecuted, so it is not the case that
    it returns no error and triggers none. *)
Lemma Round_nothing_submitted_emits :
  let f := New example_paras example_rng in
  queue f = [] ∧ ctxs f = ∅
  ∧ (∃ f' s, Round example_HadFirstRound f 0.5%float no_givers = Some (f', None)
       ∧ emitted f f' (RoundExecuted s))
  ∧ ¬ (∃ f', Round example_HadFirstRound f 0.5%float no_givers = Some (f', None)
         ∧ ∀ s, ¬ emitted f f' (RoundExecuted s)).
Proof.
  intros f. split; [reflexivity|]. split; [reflexivity|]. split.
  - eexists _, _. split; [vm_compute; reflexivity|].
    eexists. split; [reflexivity|]. apply list_elem_of_here.
  - intros (f' & HR & Hno).
    vm_compute in HR. injection HR as Hf'.
    apply (Hno {| RandUsed := 0.5%float; ActiveVoteContexts := ∅; QueriedOpinions_ := [] |}).
    eexists. rewrite <- Hf'. split; [reflexivity|]. apply list_elem_of_here.
Qed.

(** ** Runs of the engine *)

Lemma tickAll_stuck_after (p : Parameters) (rng : Rand) (k : nat) :
  tickAll (enqueue (stuck_after p rng k)) = stuck_after p rng (S k).
Proof.
  rewrite enqueue_nothing by reflexivity.
  unfold tickAll, set_ctxs, stuck_after. cbn [ctxs events queue queueSet paras
    lastRoundCompletedSuccessfully opinionGiverRng].
  rewrite map_fmap_singleton. reflexivity.
Qed.

(** C4 on the code: "a" is submitted to a fresh engine and the supplier
    returns an empty list in every round.  Every round returns
    NoOpinionGiversAvailable and ticks the context, and no event is ever
    triggered, whatever MaxRoundsPerVoteContext is: the flag stays down, so
    the finalization pass never runs and Failed never fires. *)
Theorem Round_no_givers_never_fails (HadFirstRound : Context → bool) (p : Parameters)
    (rng : Rand) (rand : float64) (n : nat) :
  let f := (Vote (New p rng) "a" ConflictType Like).1 in
  rounds HadFirstRound (S n) f rand no_givers
  = Some (stuck_after p rng (S n), replicate (S n) (Some ErrNoOpinionGiversAvailable))
  ∧ events (stuck_after p rng (S n)) = []
  ∧ ∃ c, ctxs (stuck_after p rng (S n)) !! "a" = Some c ∧ Rounds c = int_wrap (Z.of_nat (S n)).
Proof.
  intros f. split; [|split; [reflexivity|]].
  - induction n as [|n IH].
    + cbn [rounds]. cbn [mbind option_bind].
      rewrite (Round_no_givers_flag_down HadFirstRound f rand no_givers "a"
                 (NewContext "a" ConflictType Like)); [reflexivity|reflexivity| |by left|reflexivity].
      reflexivity.
    + remember (S n) as k. cbn [rounds]. rewrite IH. cbn [mbind option_bind].
      rewrite (Round_no_givers_flag_down HadFirstRound (stuck_after p rng k) rand no_givers "a"
                 (Nat.iter k tick (NewContext "a" ConflictType Like)));
        [|reflexivity|apply lookup_singleton_eq| |reflexivity].
      * cbn [mbind option_bind]. rewrite tickAll_stuck_after.
        rewrite (replicate_S_end k). reflexivity.
      * left. clear. induction k as [|k IH]; [reflexivity|]. by rewrite Nat.iter_succ.
  - eexists. split; [apply lookup_singleton_eq|]. by apply Rounds_ticks.
Qed.

(** C2 on the code: a round succeeds on a fresh engine, "a" is submitted, and
    the supplier fails in the next round.  That round returns the error, yet
    the flag is still up afterwards, and the round after it forms an opinion:
    the context of "a" holds a second opinion. *)
Theorem flag_survives_failed_round :
  ∃ f1 f2 f3 f4 c,
    Round example_HadFirstRound (New example_paras example_rng) 0.5%float no_givers
    = Some (f1, None)
    ∧ Vote f1 "a" ConflictType Like = (f2, None)
    ∧ Round example_HadFirstRound f2 0.5%float supplier_fails
      = Some (f3, Some (ErrExternal "no connection"))
    ∧ lastRoundCompletedSuccessfully f3 = true
    ∧ Round example_HadFirstRound f3 0.5%float one_giver = Some (f4, None)
    ∧ ctxs f4 !! "a" = Some c
    ∧ Opinions c = [Like; Dislike].
Proof.
  eexists _, _, _, _, _.
  split; [vm_compute; reflexivity|].
  split; [vm_compute; reflexivity|].
  split; [vm_compute; reflexivity|].
  split; [reflexivity|].
  split; [vm_compute; reflexivity|].
  split; [vm_compute; reflexivity|].
  reflexivity.
Qed.

(** C1 on the code: one conflict "c" and one timestamp "t" are queried, and the
    giver answers [Like; Dislike], Like for "c" and Dislike for "t", which has
    the required length 2.  The opinion tallied and recorded for "t", at
    position 0 of the timestamp ids, is the element at index 0 of the answer,
    Like, and not the element at index len(conflictIDs) + 0, Dislike. *)
Theorem timestamp_opinion_misread :
  let conflictIDs := ["c"%string] in
  let timestampIDs := ["t"%string] in
  Query 7%nat conflictIDs timestampIDs = Ok [Like; Dislike]
  ∧ [Like; Dislike] !! (length conflictIDs + 0)%nat = Some Dislike
  ∧ ∃ voteMap queried,
      queryGiver conflictIDs timestampIDs
        (createVoteMapForConflicts conflictIDs timestampIDs, []) (7%nat, 1)
      = Some (voteMap, [queried])
      ∧ voteMap !! "t" = Some [Like]
      ∧ QOpinions queried !! "t" = Some Like.
Proof.
  intros conflictIDs timestampIDs.
  split; [reflexivity|]. split; [reflexivity|].
  eexists _, _. split; [vm_compute; reflexivity|]. split; vm_compute; reflexivity.
Qed.

(** ** The sampler *)

Section SamplerProps.
Context {G : Type} `{OpinionGiver G}.

(** *** Count maps *)

Lemma countMap_snoc (sel : list G) (g : G) :
  countMap (sel ++ [g]) = <[g := default 0 (countMap sel !! g) + 1]> (countMap sel).
Proof. unfold countMap. by rewrite foldl_snoc. Qed.

Lemma multiplicity_snoc (g x : G) (sel : list G) :
  multiplicity g (sel ++ [x]) = multiplicity g sel + (if decide (x = g) then 1 else 0).
Proof.
  unfold multiplicity. rewrite filter_app, length_app.
  case_decide.
  - rewrite filter_cons_True by done. simpl. lia.
  - rewrite filter_cons_False by done. simpl. lia.
Qed.

Lemma multiplicity_absent (g : G) (sel : list G) : g ∉ sel → multiplicity g sel = 0.
Proof.
  intros Hnot. unfold multiplicity.
  induction sel as [|x sel IH]; [reflexivity|].
  apply not_elem_of_cons in Hnot as [Hne Hnot].
  rewrite filter_cons_False by congruence. by apply IH.
Qed.

Lemma multiplicity_present (g : G) (sel : list G) : g ∈ sel → 1 <= multiplicity g sel.
Proof.
  intros Hin. unfold multiplicity.
  induction sel as [|x sel IH]; [by apply elem_of_nil in Hin|].
  destruct (decide (x = g)) as [->|Hne].
  - rewrite filter_cons_True by done. simpl. lia.
  - rewrite filter_cons_False by done. apply IH.
    apply elem_of_cons in Hin as [?|?]; [congruence|done].
Qed.

Lemma multiplicity_le (g : G) (sel : list G) : 0 <= multiplicity g sel <= len sel.
Proof.
  unfold multiplicity, len. pose proof (length_filter (λ x, x = g) sel). lia.
Qed.

(** The count map is the multiset of the selections. *)
Lemma countMap_lookup (sel : list G) (g : G) :
  countMap sel !! g = if decide (g ∈ sel) then Some (multiplicity g sel) else None.
Proof.
  induction sel as [|x sel IH] using rev_ind.
  - unfold countMap. cbn [foldl]. rewrite lookup_empty.
    destruct (decide (g ∈ [])) as [Hin|]; [by apply elem_of_nil in Hin|done].
  - rewrite countMap_snoc, multiplicity_snoc, lookup_insert.
    destruct (decide (x = g)) as [->|Hne].
    + rewrite decide_True by (apply elem_of_app; right; by left).
      rewrite IH. case_decide; simpl; [done|]. by rewrite multiplicity_absent.
    + rewrite IH. destruct (decide (g ∈ sel)) as [Hin|Hnot].
      * rewrite decide_True by (apply elem_of_app; by left). f_equal. lia.
      * rewrite decide_False; [done|]. intros [?|Hx]%elem_of_app; [done|].
        apply list_elem_of_singleton in Hx. congruence.
Qed.

Lemma countMap_lookup_Some (sel : list G) (g : G) (c : Z) :
  countMap sel !! g = Some c → g ∈ sel ∧ 1 <= c <= len sel.
Proof.
  rewrite countMap_lookup. case_decide; [|done]. intros [= <-].
  pose proof (multiplicity_present g sel). pose proof (multiplicity_le g sel). auto with lia.
Qed.

Lemma dom_countMap (sel : list G) : dom (countMap sel) = list_to_set sel.
Proof.
  apply set_eq. intros g. rewrite elem_of_dom, elem_of_list_to_set, countMap_lookup.
  case_decide; split; done.
Qed.

Lemma size_countMap (sel : list G) : size (countMap sel) = distinct sel.
Proof. unfold distinct. by rewrite <- dom_countMap, size_dom. Qed.

(** Counting one more selection does not wrap while fewer than 2^63 - 1
    selections have been counted. *)
Lemma incr_countMap (sel : list G) (g : G) :
  len sel < MaxInt64 → incr g (countMap sel) = countMap (sel ++ [g]).
Proof.
  intros Hlen. unfold incr. rewrite countMap_snoc. f_equal.
  apply int_wrap_id. unfold is_int, MinInt64.
  destruct (countMap sel !! g) as [c|] eqn:Hc; simpl.
  - apply countMap_lookup_Some in Hc as [_ ?]. lia.
  - unfold MaxInt64. lia.
Qed.

Lemma sumCounts_step (m : gmap G Z) (g : G) :
  sumCounts (<[g := default 0 (m !! g) + 1]> m) = sumCounts m + 1.
Proof.
  unfold sumCounts.
  destruct (m !! g) as [c|] eqn:Hc; simpl.
  - rewrite <- (insert_delete_eq m).
    rewrite <- (insert_delete_id m g c Hc) at 2.
    rewrite !map_fold_insert_L; try (intros; lia); apply lookup_delete_eq.
  - rewrite map_fold_insert_L; try (intros; lia); try done.
Qed.

Lemma sumCounts_countMap (sel : list G) : sumCounts (countMap sel) = len sel.
Proof.
  unfold len. induction sel as [|x sel IH] using rev_ind; [reflexivity|].
  rewrite countMap_snoc, sumCounts_step, IH, length_app. simpl. lia.
Qed.

Lemma distinct_snoc (sel : list G) (g : G) : (distinct (sel ++ [g]) ≤ S (distinct sel))%nat.
Proof.
  unfold distinct. rewrite list_to_set_app_L, size_union_alt.
  assert (size ((list_to_set [g] : gset G) ∖ list_to_set sel) ≤ 1)%nat; [|lia].
  transitivity (size ({[g]} : gset G)); [|by rewrite size_singleton].
  apply subseteq_size. set_solver.
Qed.

(** *** Prefix sums and the pick *)

Lemma sumMana_spec (gs : list G) (acc : float64) (totals : list float64) :
  sumMana gs acc totals
  = (foldl PrimFloat.add acc (Mana <$> gs), totals ++ prefixSumsFrom acc gs).
Proof.
  revert acc totals. induction gs as [|g gs IH]; intros acc totals; simpl.
  - by rewrite app_nil_r.
  - rewrite IH, <- app_assoc. reflexivity.
Qed.

Lemma length_prefixSumsFrom (acc : float64) (gs : list G) :
  length (prefixSumsFrom acc gs) = length gs.
Proof. revert acc. induction gs as [|g gs IH]; intros acc; simpl; [done|]. by rewrite IH. Qed.

(** The k-th prefix sum is the sum of the mana of the first k+1 givers. *)
Lemma prefixSums_lookup (gs : list G) (k : nat) :
  (k < length gs)%nat →
  prefixSums gs !! k = Some (totalManaOf (take (S k) gs)).
Proof.
  unfold prefixSums, totalManaOf. generalize 0%float as acc.
  revert k. induction gs as [|g gs IH]; intros k acc Hk; simpl in Hk; [lia|].
  destruct k as [|k]; simpl.
  - by destruct gs.
  - rewrite IH by lia. reflexivity.
Qed.

Lemma selectGiver_find (gs : list G) (rnd : float64) (m : gmap G Z) (totals : list float64) :
  ∀ (rest : list G) (idx : nat),
    drop idx gs = rest → length totals = length rest →
    selectGiver gs totals idx rnd m
    = Some (match List.find (λ gp : G * float64, (rnd <? gp.2)%float) (zip rest totals) with
            | Some gp => incr gp.1 m
            | None => m
            end).
Proof.
  induction totals as [|v totals IH]; intros rest idx Hdrop Hlen.
  - destruct rest; [reflexivity|discriminate].
  - destruct rest as [|g rest]; [discriminate|]. simpl.
    destruct (rnd <? v)%float.
    + assert (gs !! idx = Some g) as ->; [|reflexivity].
      rewrite <- (Nat.add_0_r idx), <- lookup_drop, Hdrop. reflexivity.
    + apply IH; [|simpl in Hlen; lia].
      replace (S idx) with (idx + 1)%nat by lia. by rewrite <- drop_drop, Hdrop.
Qed.

Lemma selectGiver_pick (gs : list G) (rnd : float64) (m : gmap G Z) :
  selectGiver gs (prefixSums gs) 0 rnd m
  = Some (match pick gs rnd with Some g => incr g m | None => m end).
Proof.
  rewrite (selectGiver_find gs rnd m (prefixSums gs) gs 0);
    [|reflexivity|apply length_prefixSumsFrom].
  unfold pick. by destruct (List.find _ _).
Qed.

Lemma pick_elem_of (gs : list G) (x : float64) (g : G) : pick gs x = Some g → g ∈ gs.
Proof.
  unfold pick. destruct (List.find _ _) as [[g' p]|] eqn:Hf; [|done].
  intros [= <-]. apply find_some in Hf as [Hin _].
  apply list_elem_of_In in Hin. by apply elem_of_zip_l in Hin.
Qed.

End SamplerProps.

Section SamplerRefinement.
Context {G : Type} `{OpinionGiver G}.

Lemma rng_at_calls (rng : Rand) : rng_at (rng_calls rng) rng = rng.
Proof. by destruct rng. Qed.

(** *** The weighted loop against the weighted selection *)

Lemma weightedDraws_refines (gs : list G) (M : float64) (qss : Z) (fuel : nat) :
  ∀ (sel : list G) (rng : Rand),
    len sel + Z.of_nat fuel <= MaxInt64 →
    weightedDraws fuel gs (prefixSums gs) M qss (countMap sel) rng
    = Some (countMap (weightedSelection fuel gs M qss (rng_floats rng) (rng_calls rng) sel).1,
            rng_at (weightedSelection fuel gs M qss (rng_floats rng) (rng_calls rng) sel).2 rng).
Proof.
  induction fuel as [|fuel IH]; intros sel rng Hlen; cbn [weightedDraws weightedSelection].
  - simpl. by rewrite rng_at_calls.
  - rewrite size_countMap.
    destruct (Z.of_nat (distinct sel) <? qss); [|simpl; by rewrite rng_at_calls].
    cbn [Float64]. rewrite selectGiver_pick. cbn [mbind option_bind].
    assert ((match pick gs (rng_floats rng (rng_calls rng) * M)%float with
             | Some g => incr g (countMap sel)
             | None => countMap sel
             end)
            = countMap (sel ++ option_list (pick gs (rng_floats rng (rng_calls rng) * M)%float)))
      as ->.
    { destruct (pick gs _) as [g|]; simpl; [|by rewrite app_nil_r].
      apply incr_countMap. lia. }
    rewrite IH; [reflexivity|].
    unfold len in *. rewrite length_app.
    assert (length (option_list (pick gs (rng_floats rng (rng_calls rng) * M)%float)) ≤ 1)%nat
      by (destruct (pick gs _); simpl; lia).
    lia.
Qed.

(** What the weighted selection guarantees: the attempts made are at most
    the attempts allowed; it stops early only with enough distinct givers;
    every attempt selects at most one giver, a giver of the list; and the
    distinct givers never exceed the sample size. *)
Lemma weightedSelection_props (gs : list G) (M : float64) (qss : Z) (draw : nat → float64)
    (fuel : nat) :
  ∀ (k : nat) (sel : list G),
    let r := weightedSelection fuel gs M qss draw k sel in
    (k ≤ r.2 ≤ k + fuel)%nat
    ∧ ((r.2 < k + fuel)%nat → qss <= Z.of_nat (distinct r.1))
    ∧ (length r.1 ≤ length sel + (r.2 - k))%nat
    ∧ (Z.of_nat (distinct sel) <= Z.max 0 qss → Z.of_nat (distinct r.1) <= Z.max 0 qss)
    ∧ (∀ g, g ∈ r.1 → g ∈ sel ∨ g ∈ gs).
Proof.
  induction fuel as [|fuel IH]; intros k sel; cbn [weightedSelection].
  - simpl. repeat split; auto with lia.
  - destruct (Z.ltb_spec (Z.of_nat (distinct sel)) qss) as [Hlt|Hge].
    + set (sel' := sel ++ option_list (pick gs (draw k * M)%float)).
      destruct (IH (S k) sel') as (Hk & Hstop & Hlen & Hdist & Hin). cbv zeta.
      assert (length sel' ≤ S (length sel) ∧ distinct sel' ≤ S (distinct sel)
              ∧ ∀ g, g ∈ sel' → g ∈ sel ∨ g ∈ gs)%nat as (Hl' & Hd' & Hin').
      { unfold sel'. destruct (pick gs _) as [g|] eqn:Hp; simpl.
        - rewrite length_app. simpl. split; [lia|]. split; [apply distinct_snoc|].
          intros x [?|Hx]%elem_of_app; [by left|]. apply list_elem_of_singleton in Hx as ->.
          right. by eapply pick_elem_of.
        - rewrite app_nil_r. auto with lia. }
      split; [lia|]. split; [intros; apply Hstop; lia|]. split; [lia|]. split.
      * intros _. apply Hdist. lia.
      * intros g Hg. destruct (Hin g Hg) as [?|?]; auto.
    + simpl. split; [lia|]. split; [intros; lia|]. split; [lia|]. auto.
Qed.

(** *** The uniform loop against the uniform selection *)

Lemma uniformSelection_props (gs : list G) (draw : nat → Z) (n : nat) :
  gs ≠ [] → ∀ k, length (uniformSelection n gs draw k) = n
                 ∧ ∀ g, g ∈ uniformSelection n gs draw k → g ∈ gs.
Proof.
  intros Hne. induction n as [|n IH]; intros k; simpl.
  - split; [done|]. intros g Hg. by apply elem_of_nil in Hg.
  - destruct (IH (S k)) as [Hlen Hin].
    assert (0 < len gs) as Hpos by (unfold len; destruct gs; [done|simpl; lia]).
    destruct (lookup_lt_is_Some_2 gs (Z.to_nat (draw k `mod` len gs))) as [g Hg].
    { pose proof (Z.mod_pos_bound (draw k) (len gs) Hpos). unfold len in *. lia. }
    rewrite Hg. simpl. rewrite Hlen. split; [done|].
    intros x [->|Hx]%elem_of_cons; [|by apply Hin]. by eapply list_elem_of_lookup_2.
Qed.

Lemma uniformDraws_refines (gs : list G) (fuel : nat) :
  gs ≠ [] →
  ∀ (sel : list G) (rng : Rand),
    len sel + Z.of_nat fuel <= MaxInt64 →
    uniformDraws fuel gs (countMap sel) rng
    = Some (countMap (sel ++ uniformSelection fuel gs (rng_ints rng) (rng_calls rng)),
            rng_at (rng_calls rng + fuel) rng).
Proof.
  intros Hne. induction fuel as [|fuel IH]; intros sel rng Hlen; cbn [uniformDraws uniformSelection].
  - by rewrite app_nil_r, Nat.add_0_r, rng_at_calls.
  - assert (0 < len gs) as Hpos by (unfold len; destruct gs; [done|simpl; lia]).
    unfold Intn. destruct (Z.leb_spec (len gs) 0) as [?|_]; [lia|].
    cbn [mbind option_bind].
    destruct (lookup_lt_is_Some_2 gs (Z.to_nat (rng_ints rng (rng_calls rng) `mod` len gs)))
      as [g Hg].
    { pose proof (Z.mod_pos_bound (rng_ints rng (rng_calls rng)) (len gs) Hpos).
      unfold len in *. lia. }
    rewrite Hg. cbn [mbind option_bind option_list].
    rewrite incr_countMap by lia. rewrite IH.
    + cbn [rng_next rng_ints rng_calls]. rewrite <- app_assoc. simpl.
      do 2 f_equal. unfold rng_at. simpl. f_equal. lia.
    + unfold len in *. rewrite length_app. simpl. lia.
Qed.

Lemma ManaBasedSampling_unfold (gs : list G) (maxQ qss : Z) (rng : Rand) :
  ManaBasedSampling gs maxQ qss rng
  = if (PrimFloat.abs (totalManaOf gs) <=? toleranceTotalMana)%float
    then '(m, rng) ← UniformSampling gs maxQ qss rng; Some (m, 0%float, rng)
    else '(m, rng) ← weightedDraws (Z.to_nat maxQ) gs (prefixSums gs) (totalManaOf gs) qss ∅ rng;
         Some (m, totalManaOf gs, rng).
Proof. unfold ManaBasedSampling. rewrite sumMana_spec. reflexivity. Qed.

(** C8: [ManaBasedSampling] computes M as the sum of the mana of all givers.
    If |M| <= 0.001 it returns what [UniformSampling] returns together with
    0, and [UniformSampling] makes exactly querySampleSize draws, one call of
    the random source each, every draw taking a giver of the list at a
    position the source gives, and returns the map giver → count of the
    draws.  Otherwise it makes at most maxQuerySampleSize attempts, each
    selecting the giver whose prefix sum first exceeds x = u * M, stops early
    only when the distinct givers selected have reached querySampleSize, and
    returns the map giver → count of the selections together with M.
    (The sizes are read as counts: a negative size is no draw at all.) *)
Theorem ManaBasedSampling_spec (gs : list G) (maxQuerySampleSize querySampleSize : Z)
    (rng : Rand) :
  is_int maxQuerySampleSize → is_int querySampleSize →
  let M := totalManaOf gs in
  let attempts := Z.to_nat maxQuerySampleSize in
  let draws := Z.to_nat querySampleSize in
  ((PrimFloat.abs M <=? toleranceTotalMana)%float = true →
     ManaBasedSampling gs maxQuerySampleSize querySampleSize rng
     = ('(m, rng') ← UniformSampling gs maxQuerySampleSize querySampleSize rng;
        Some (m, 0%float, rng'))
     ∧ (gs ≠ [] →
        let sel := uniformSelection draws gs (rng_ints rng) (rng_calls rng) in
        UniformSampling gs maxQuerySampleSize querySampleSize rng
        = Some (countMap sel, rng_at (rng_calls rng + draws) rng)
        ∧ length sel = draws
        ∧ (∀ g, g ∈ sel → g ∈ gs)
        ∧ (∀ g, countMap sel !! g
                = if decide (g ∈ sel) then Some (multiplicity g sel) else None)))
  ∧ ((PrimFloat.abs M <=? toleranceTotalMana)%float = false →
     let sel := (weightedSelection attempts gs M querySampleSize
                   (rng_floats rng) (rng_calls rng) []).1 in
     let made := (weightedSelection attempts gs M querySampleSize
                    (rng_floats rng) (rng_calls rng) []).2 in
     ManaBasedSampling gs maxQuerySampleSize querySampleSize rng
     = Some (countMap sel, M, rng_at made rng)
     ∧ (rng_calls rng ≤ made ≤ rng_calls rng + attempts)%nat
     ∧ ((made < rng_calls rng + attempts)%nat → querySampleSize <= Z.of_nat (distinct sel))
     ∧ Z.of_nat (distinct sel) <= Z.max 0 querySampleSize
     ∧ (∀ g, g ∈ sel → g ∈ gs)
     ∧ (∀ g, countMap sel !! g
             = if decide (g ∈ sel) then Some (multiplicity g sel) else None)).
Proof.
  intros Hmax Hqss M attempts draws. subst M attempts draws.
  unfold is_int, MinInt64, MaxInt64 in *.
  rewrite ManaBasedSampling_unfold. split.
  - intros ->. split; [reflexivity|]. intros Hne.
    destruct (uniformSelection_props gs (rng_ints rng) (Z.to_nat querySampleSize) Hne
                (rng_calls rng)) as [Hlen Hin].
    split; [|split; [done|split; [done|apply countMap_lookup]]].
    unfold UniformSampling.
    pose proof (uniformDraws_refines gs (Z.to_nat querySampleSize) Hne [] rng) as Hu.
    change (countMap []) with (∅ : gmap G Z) in Hu. rewrite Hu; [reflexivity|].
    unfold len, MaxInt64. simpl. lia.
  - intros ->.
    pose proof (weightedDraws_refines gs (totalManaOf gs) querySampleSize
                  (Z.to_nat maxQuerySampleSize) [] rng) as Hw.
    change (countMap []) with (∅ : gmap G Z) in Hw.
    rewrite Hw by (unfold len, MaxInt64; simpl; lia). clear Hw.
    cbn [mbind option_bind]. split; [reflexivity|].
    destruct (weightedSelection_props gs (totalManaOf gs) querySampleSize (rng_floats rng)
                (Z.to_nat maxQuerySampleSize) (rng_calls rng) [])
      as (Hk & Hstop & _ & Hdist & Hin).
    split; [exact Hk|]. split; [exact Hstop|]. split; [|split].
    + apply Hdist. change (distinct []) with (size (∅ : gset G)). rewrite size_empty. lia.
    + intros g Hg. destruct (Hin g Hg) as [Hnil|?]; [by apply elem_of_nil in Hnil|done].
    + apply countMap_lookup.
Qed.

(** C10: when the total mana is above the tolerance, the map returned by
    [ManaBasedSampling] maps each recorded giver to a count of at least 1,
    holds at most querySampleSize distinct givers, and its counts sum to at
    most maxQuerySampleSize, since each attempt selects at most one giver.
    (The sizes are read as counts: for a negative size the loop does not run
    and the map is empty.) *)
Theorem ManaBasedSampling_counts (gs : list G) (maxQuerySampleSize querySampleSize : Z)
    (rng : Rand) :
  is_int maxQuerySampleSize →
  (PrimFloat.abs (totalManaOf gs) <=? toleranceTotalMana)%float = false →
  ∃ m rng', ManaBasedSampling gs maxQuerySampleSize querySampleSize rng
            = Some (m, totalManaOf gs, rng')
    ∧ (∀ g c, m !! g = Some c → 1 <= c ∧ g ∈ gs)
    ∧ Z.of_nat (size m) <= Z.max 0 querySampleSize
    ∧ sumCounts m <= Z.max 0 maxQuerySampleSize
    ∧ sumCounts m <= Z.of_nat (rng_calls rng' - rng_calls rng).
Proof.
  intros Hmax Htol. unfold is_int, MinInt64, MaxInt64 in *.
  rewrite ManaBasedSampling_unfold, Htol.
  pose proof (weightedDraws_refines gs (totalManaOf gs) querySampleSize
                (Z.to_nat maxQuerySampleSize) [] rng) as Hw.
  change (countMap []) with (∅ : gmap G Z) in Hw.
  rewrite Hw by (unfold len, MaxInt64; simpl; lia). clear Hw.
  cbn [mbind option_bind].
  destruct (weightedSelection_props gs (totalManaOf gs) querySampleSize (rng_floats rng)
              (Z.to_nat maxQuerySampleSize) (rng_calls rng) [])
    as (Hk & _ & Hlen & Hdist & Hin).
  destruct (weightedSelection _ _ _ _ _ _ _) as [sel made]. cbn [fst snd length] in *.
  exists (countMap sel), (rng_at made rng). split; [reflexivity|]. split; [|split; [|split]].
  - intros g c Hc. apply countMap_lookup_Some in Hc as [Hg Hc]. split; [lia|].
    destruct (Hin g Hg) as [Hnil|?]; [by apply elem_of_nil in Hnil|done].
  - rewrite size_countMap. apply Hdist.
    change (distinct []) with (size (∅ : gset G)). rewrite size_empty. lia.
  - rewrite sumCounts_countMap. unfold len. lia.
  - rewrite sumCounts_countMap. unfold len. cbn [rng_at rng_calls]. lia.
Qed.

End SamplerRefinement.

(** Two givers without mana: the uniform fallback draws twice.  Three givers
    of mana 1: the weighted sampling stops after two attempts, with two
    distinct givers. *)
Lemma ManaBasedSampling_spec_witness :
  ManaBasedSampling [0; 0]%nat 5 2 example_rng
  = Some ({[ 0%nat := 2 ]}, 0%float, rng_at 2 example_rng)
  ∧ ManaBasedSampling [1; 2; 3]%nat 5 2 example_rng
    = Some ({[ 1%nat := 1; 3%nat := 1 ]}, 3%float, rng_at 2 example_rng).
Proof.
  assert (is_int 5 ∧ is_int 2) as [H5 H2] by (unfold is_int, MinInt64, MaxInt64; lia).
  split.
  - destruct (ManaBasedSampling_spec [0; 0]%nat 5 2 example_rng H5 H2) as [Hu _].
    destruct (Hu eq_refl) as [-> Hsel].
    destruct Hsel as (-> & _); [discriminate|]. vm_compute. reflexivity.
  - destruct (ManaBasedSampling_spec [1; 2; 3]%nat 5 2 example_rng H5 H2) as [_ Hw].
    destruct (Hw eq_refl) as (-> & _). vm_compute. reflexivity.
Defined.

Lemma ManaBasedSampling_counts_witness :
  ∃ m rng', ManaBasedSampling [1; 2; 3]%nat 5 2 example_rng = Some (m, 3%float, rng')
    ∧ (∀ g c, m !! g = Some c → 1 <= c ∧ g ∈ [1; 2; 3]%nat)
    ∧ Z.of_nat (size m) <= 2
    ∧ sumCounts m <= 5.
Proof.
  destruct (ManaBasedSampling_counts [1; 2; 3]%nat 5 2 example_rng)
    as (m & rng' & Hm & Hc & Hsize & Hsum & _).
  - unfold is_int, MinInt64, MaxInt64. lia.
  - reflexivity.
  - exists m, rng'. split; [exact Hm|]. split; [exact Hc|]. split; [exact Hsize|exact Hsum].
Defined.

(** ** Rounds never panic *)

Lemma appendVotes_dom (fuel : nat) (id : string) (o : Opinion) :
  ∀ voteMap : gmap string (list Opinion),
    dom (appendVotes fuel id o voteMap) ⊆ dom voteMap ∪ {[id]}.
Proof.
  induction fuel as [|fuel IH]; intros voteMap; simpl; [set_solver|].
  etransitivity; [apply IH|]. rewrite dom_insert. set_solver.
Qed.

(** The range loops of the query task read the answer at the position they
    have reached, so they run to their end on an answer that is long enough,
    touch no tally but those of their ids, and record for the id at position
    k the element of the answer at index i + k, where i is the index the loop
    starts from. *)
Lemma addOpinions_spec (ids : list string) (opinions : list Opinion) (selectedCount : Z) :
  ∀ (i : nat) (voteMap : gmap string (list Opinion)) (queried : gmap string Opinion),
    (i + length ids ≤ length opinions)%nat →
    ∃ voteMap' queried',
      addOpinions ids i opinions selectedCount voteMap queried = Some (voteMap', queried')
      ∧ dom voteMap' ⊆ dom voteMap ∪ list_to_set ids
      ∧ (∀ id, id ∉ ids → queried' !! id = queried !! id)
      ∧ (NoDup ids → ∀ k id, ids !! k = Some id → queried' !! id = opinions !! (i + k)%nat).
Proof.
  induction ids as [|id0 ids IH]; intros i voteMap queried Hlen; simpl in *.
  - eexists _, _. split; [reflexivity|]. split; [set_solver|]. split; [done|].
    intros _ k id Hk. done.
  - destruct (lookup_lt_is_Some_2 opinions i) as [o Ho]; [lia|]. rewrite Ho.
    cbn [mbind option_bind].
    destruct (IH (S i) (appendVotes (Z.to_nat selectedCount) id0 o voteMap)
                (<[id0 := o]> queried)) as (vm' & q' & Hadd & Hdom & Hframe & Hrec); [lia|].
    exists vm', q'. split; [exact Hadd|]. split; [|split].
    + pose proof (appendVotes_dom (Z.to_nat selectedCount) id0 o voteMap). set_solver.
    + intros id [Hne Hnotin]%not_elem_of_cons.
      rewrite (Hframe id Hnotin). by apply lookup_insert_ne.
    + intros [Hnotin Hnd]%NoDup_cons [|k] id Hk; simpl in Hk.
      * simplify_eq. rewrite Nat.add_0_r, Ho, (Hframe id Hnotin). apply lookup_insert_eq.
      * rewrite (Hrec Hnd k id Hk). f_equal. lia.
Qed.



Section Totality.
Context {G : Type} `{OpinionGiver G}.
Variable HadFirstRound : Context → bool.





(** What the query task records for the timestamps: for an answer of the
  required length, the opinion recorded for the timestamp at position k is
  the element of the answer at index k. *)
Lemma queryGiver_records (conflictIDs timestampIDs : list string)
  (st : gmap string (list Opinion) * list QueriedOpinions) (g : G) (selectedCount : Z)
  (opinions : list Opinion) :
Query g conflictIDs timestampIDs = Ok opinions →
len opinions = len conflictIDs + len timestampIDs →
NoDup timestampIDs →
∃ voteMap queried,
  queryGiver conflictIDs timestampIDs st (g, selectedCount)
  = Some (voteMap, st.2 ++ [queried])
  ∧ ∀ k id, timestampIDs !! k = Some id → QOpinions queried !! id = opinions !! k.
Proof.
intros HQ Hlen Hnd. unfold queryGiver. rewrite HQ.
rewrite bool_decide_eq_false_2 by (intros Hne; by apply Hne).
unfold len in Hlen.
destruct (addOpinions_spec conflictIDs opinions selectedCount 0 st.1 ∅)
  as (vm1 & q1 & -> & _); [lia|].
cbn [mbind option_bind].
destruct (addOpinions_spec timestampIDs opinions selectedCount 0 vm1 q1)
  as (vm2 & q2 & -> & _ & _ & Hrec); [lia|].
cbn [mbind option_bind]. eexists _, _. split; [reflexivity|]. simpl.
intros k id Hk. by rewrite (Hrec Hnd k id Hk).
Qed.


End Totality.

(** * Further properties of the engine *)

(** ** The finalization pass, exactly *)

Lemma finalizeOne_leaves (p : Parameters) (acc : gmap string Context * list Event)
    (id : string) (c : Context) :
  finalizeOne p acc (id, c)
  = if leaves p c then (delete id acc.1, acc.2 ++ [finalEvent p id c]) else acc.
Proof.
  unfold finalizeOne, leaves, finalEvent.
  destruct (IsFinalized _ _ c); [reflexivity|]. simpl.
  destruct (_ <=? _); reflexivity.
Qed.

Lemma finalize_fold_exact (p : Parameters) (l : list (string * Context)) :
  ∀ (m : gmap string Context) (evs : list Event),
    foldl (finalizeOne p) (m, evs) l
    = (foldl (λ m e, delete e.1 m) m (filter (λ e, leaves p e.2 = true) l),
       evs ++ ((λ e, finalEvent p e.1 e.2) <$> filter (λ e, leaves p e.2 = true) l)).
Proof.
  induction l as [|[id c] l IH]; intros m evs; cbn [foldl].
  - simpl. by rewrite app_nil_r.
  - rewrite finalizeOne_leaves. destruct (leaves p c) eqn:Hl.
    + rewrite filter_cons_True by done. rewrite IH. cbn [foldl fmap list_fmap fst snd].
      by rewrite <- app_assoc.
    + rewrite filter_cons_False by (simpl; congruence). apply IH.
Qed.

Lemma lookup_foldl_delete (l : list (string * Context)) :
  ∀ (m : gmap string Context) (id : string),
    foldl (λ m e, delete e.1 m) m l !! id = if decide (id ∈ l.*1) then None else m !! id.
Proof.
  induction l as [|[id0 c0] l IH]; intros m id; cbn [foldl].
  - rewrite decide_False; [done|]. apply not_elem_of_nil.
  - rewrite IH. simpl. destruct (decide (id ∈ l.*1)) as [Hin|Hnot].
    + rewrite decide_True; [done|]. by right.
    + destruct (decide (id = id0)) as [->|Hne].
      * rewrite decide_True by (by left). apply lookup_delete_eq.
      * rewrite decide_False by (intros [?|?]%elem_of_cons; done).
        by apply lookup_delete_ne.
Qed.

(** X1: the finalization pass removes from the registry exactly the contexts
    that are finalized or have reached MaxRoundsPerVoteContext, and triggers
    one event for each of them, after the events triggered before: Finalized
    if the context is finalized (also when it has reached the cap), Failed
    otherwise; the event carries the id, the last opinion and a copy of the
    context.  Every other context stays as it is, and nothing else of the
    engine changes. *)
Theorem finalizeOpinions_exact (f : FPC) :
  let p := paras f in
  let finalized c :=
    IsFinalized (TotalRoundsCoolingOffPeriod p) (TotalRoundsFinalization p) c = true in
  let payload id c := {| EvID := id; EvOpinion := LastOpinion c; EvCtx := c |} in
  ∃ gone : list (string * Context),
    NoDup gone.*1
    ∧ (∀ id c, (id, c) ∈ gone ↔
         ctxs f !! id = Some c ∧ (finalized c ∨ MaxRoundsPerVoteContext p <= Rounds c))
    ∧ events (finalizeOpinions f)
      = events f ++ ((λ e, if decide (finalized e.2) then Finalized (payload e.1 e.2)
                           else Failed (payload e.1 e.2)) <$> gone)
    ∧ (∀ id, ctxs (finalizeOpinions f) !! id
             = if decide (id ∈ gone.*1) then None else ctxs f !! id)
    ∧ queue (finalizeOpinions f) = queue f
    ∧ queueSet (finalizeOpinions f) = queueSet f
    ∧ lastRoundCompletedSuccessfully (finalizeOpinions f) = lastRoundCompletedSuccessfully f.
Proof.
  intros p finalized payload.
  exists (filter (λ e, leaves p e.2 = true) (map_to_list (ctxs f))).
  split; [|split; [|split; [|split]]].
  - apply (sublist_NoDup _ (map_to_list (ctxs f)).*1); [apply NoDup_fst_map_to_list|].
    apply fmap_sublist, sublist_filter.
  - intros id c. rewrite list_elem_of_filter, elem_of_map_to_list. simpl.
    unfold leaves, finalized. fold p.
    rewrite orb_true_iff, Z.leb_le. tauto.
  - unfold finalizeOpinions. rewrite finalize_fold_exact. fold p. simpl. f_equal.
    apply list_fmap_ext. intros _ [id c] _. simpl. unfold finalEvent, finalized, payload.
    destruct (IsFinalized _ _ c); [by rewrite decide_True|by rewrite decide_False].
  - intros id. unfold finalizeOpinions. rewrite finalize_fold_exact. simpl.
    apply lookup_foldl_delete.
  - destruct (finalizeOpinions_frame f) as (? & ? & ? & _). done.
Qed.

(** The registry of scenario S1 after two rounds and the formation of the
    third: "a" holds three Like and is finalized. *)
Lemma finalizeOpinions_exact_witness :
  let a := {| ID := "a"; Type_ := ConflictType; ProportionLiked := 1%float; Rounds := 2;
              Opinions := [Like; Like; Like];
              Weights := {| OwnWeight := 0%float; TotalWeights := 1%float |} |} in
  let f := set_ctxs {[ "a"%string := a ]} (New example_paras example_rng) in
  events (finalizeOpinions f)
  = [Finalized {| EvID := "a"; EvOpinion := Like; EvCtx := a |}]
  ∧ ctxs (finalizeOpinions f) !! "a" = None.
Proof.
  intros a f.
  destruct (finalizeOpinions_exact f) as (gone & Hnd & Hgone & Hev & Hctx & _).
  assert ((("a"%string, a)) ∈ gone) as Hin.
  { apply Hgone. split; [apply lookup_singleton_eq|]. left. reflexivity. }
  split.
  - vm_compute. reflexivity.
  - rewrite Hctx. rewrite decide_True; [reflexivity|].
    apply list_elem_of_fmap. by exists ("a"%string, a).
Defined.

(** ** Draining the queue *)

Lemma drain_lookup_other (q : list Context) (m : gmap string Context) (qs : gset string) id :
  id ∉ ID <$> q → (drain q m qs).1 !! id = m !! id.
Proof.
  revert m qs. induction q as [|c q IH]; intros m qs Hnot; simpl; [done|].
  rewrite fmap_cons in Hnot. apply not_elem_of_cons in Hnot as [Hne Hnot].
  rewrite IH by done. by apply lookup_insert_ne.
Qed.

Lemma drain_lookup_queued (q : list Context) (m : gmap string Context) (qs : gset string) c :
  NoDup (ID <$> q) → c ∈ q → (drain q m qs).1 !! ID c = Some c.
Proof.
  revert m qs. induction q as [|c0 q IH]; intros m qs Hnd Hin; [by apply elem_of_nil in Hin|].
  rewrite fmap_cons in Hnd. apply NoDup_cons in Hnd as [Hnotin Hnd]. simpl.
  apply elem_of_cons in Hin as [->|Hin]; [|by apply IH].
  rewrite drain_lookup_other by done. apply lookup_insert_eq.
Qed.

(** X2: draining a queue without duplicate ids empties it, moves every queued
    context into the registry under its own id, leaves the other registry
    entries alone and takes the queued ids out of the queue set; nothing else
    changes, and draining again changes nothing. *)
Theorem enqueue_exact (f : FPC) :
  NoDup (ID <$> queue f) →
  queue (enqueue f) = []
  ∧ queueSet (enqueue f) = queueSet f ∖ list_to_set (ID <$> queue f)
  ∧ (∀ c, c ∈ queue f → ctxs (enqueue f) !! ID c = Some c)
  ∧ (∀ id, id ∉ ID <$> queue f → ctxs (enqueue f) !! id = ctxs f !! id)
  ∧ events (enqueue f) = events f
  ∧ lastRoundCompletedSuccessfully (enqueue f) = lastRoundCompletedSuccessfully f
  ∧ enqueue (enqueue f) = enqueue f.
Proof.
  intros Hnd. split; [apply enqueue_queue|]. split; [apply enqueue_queueSet|].
  split; [|split; [|split; [apply enqueue_events|split; [apply enqueue_flag|]]]].
  - intros c Hc. rewrite enqueue_ctxs. by apply drain_lookup_queued.
  - intros id Hid. rewrite enqueue_ctxs. by apply drain_lookup_other.
  - apply enqueue_nothing, enqueue_queue.
Qed.

Lemma enqueue_exact_witness :
  ctxs (enqueue two_votes) !! "c" = Some (NewContext "c" ConflictType Like)
  ∧ ctxs (enqueue two_votes) !! "t" = Some (NewContext "t" TimestampType Dislike)
  ∧ queue (enqueue two_votes) = [].
Proof.
  destruct (enqueue_exact two_votes) as (Hq & _ & Hin & _).
  - vm_compute. repeat constructor; set_solver.
  - split; [|split; [|exact Hq]].
    + apply (Hin (NewContext "c" ConflictType Like)). vm_compute. by left.
    + apply (Hin (NewContext "t" TimestampType Dislike)). vm_compute. right. by left.
Defined.

(** ** The ids put to the vote *)

Lemma voteContextIDs_filter (l : list (string * Context)) :
  ∀ acc : list string * list string,
    foldl (λ (acc : list string * list string) (entry : string * Context),
             match Type_ entry.2 with
             | ConflictType => (acc.1 ++ [entry.1], acc.2)
             | TimestampType => (acc.1, acc.2 ++ [entry.1])
             | OtherType _ => acc
             end) acc l
    = (acc.1 ++ (filter (λ e, Type_ e.2 = ConflictType) l).*1,
       acc.2 ++ (filter (λ e, Type_ e.2 = TimestampType) l).*1).
Proof.
  induction l as [|[id c] l IH]; intros [cs ts]; cbn [foldl].
  - simpl. by rewrite !app_nil_r.
  - rewrite IH. simpl. destruct (Type_ c) eqn:Hty; simpl.
    + rewrite (filter_cons_True (λ e, Type_ e.2 = ConflictType)) by done.
      rewrite (filter_cons_False (λ e, Type_ e.2 = TimestampType)) by (simpl; congruence).
      simpl. by rewrite <- app_assoc.
    + rewrite (filter_cons_False (λ e, Type_ e.2 = ConflictType)) by (simpl; congruence).
      rewrite (filter_cons_True (λ e, Type_ e.2 = TimestampType)) by done.
      simpl. by rewrite <- app_assoc.
    + rewrite (filter_cons_False (λ e, Type_ e.2 = ConflictType)) by (simpl; congruence).
      rewrite (filter_cons_False (λ e, Type_ e.2 = TimestampType)) by (simpl; congruence).
      done.
Qed.

(** X3: the conflict ids put to the vote are exactly the ids of the registry
    whose context is of type Conflict, the timestamp ids exactly those whose
    context is of type Timestamp; a context of any other type is in neither
    list, and no id occurs twice in the two lists together. *)
Theorem voteContextIDs_exact (f : FPC) :
  (∀ id, id ∈ (voteContextIDs f).1 ↔ ∃ c, ctxs f !! id = Some c ∧ Type_ c = ConflictType)
  ∧ (∀ id, id ∈ (voteContextIDs f).2 ↔ ∃ c, ctxs f !! id = Some c ∧ Type_ c = TimestampType)
  ∧ NoDup ((voteContextIDs f).1 ++ (voteContextIDs f).2).
Proof.
  unfold voteContextIDs. rewrite voteContextIDs_filter. cbn [fst snd app].
  assert (∀ (ty : ObjectType) id,
            id ∈ (filter (λ e : string * Context, Type_ e.2 = ty) (map_to_list (ctxs f))).*1
            ↔ ∃ c, ctxs f !! id = Some c ∧ Type_ c = ty) as Hmem.
  { intros ty id. rewrite list_elem_of_fmap. split.
    - intros ([id' c] & -> & [Hty Hin]%list_elem_of_filter).
      apply elem_of_map_to_list in Hin. eauto.
    - intros (c & Hc & Hty). exists (id, c). split; [done|].
      apply list_elem_of_filter. split; [done|]. by apply elem_of_map_to_list. }
  assert (∀ ty : ObjectType,
            NoDup (filter (λ e : string * Context, Type_ e.2 = ty) (map_to_list (ctxs f))).*1)
    as Hnd.
  { intros ty. apply (sublist_NoDup _ (map_to_list (ctxs f)).*1);
      [apply NoDup_fst_map_to_list|]. apply fmap_sublist, sublist_filter. }
  split; [apply Hmem|]. split; [apply Hmem|].
  apply NoDup_app. split; [apply Hnd|]. split; [|apply Hnd].
  intros id (c & Hc & Hty)%Hmem (c' & Hc' & Hty')%Hmem. congruence.
Qed.

Lemma voteContextIDs_exact_witness :
  voteContextIDs (enqueue two_votes) = (["c"%string], ["t"%string])
  ∧ "c"%string ∈ (voteContextIDs (enqueue two_votes)).1.
Proof.
  split; [vm_compute; reflexivity|].
  destruct (voteContextIDs_exact (enqueue two_votes)) as (Hc & _ & _).
  apply Hc. exists (NewContext "c" ConflictType Like). split; vm_compute; reflexivity.
Defined.

(** ** What the aggregation leaves alone *)

Lemma aggregateOne_fields (p : Parameters) ownMana totalMana (m m' : gmap string Context) entry :
  aggregateOne p ownMana totalMana m entry = Some m' →
  (∀ id, id ≠ entry.1 → m' !! id = m !! id)
  ∧ ∀ id c', m' !! id = Some c' → ∃ c, m !! id = Some c ∧ same_vote c c'.
Proof.
  destruct entry as [id0 votes]. intros Hagg.
  destruct (Z.lt_ge_cases (votedCountOf votes) (MinOpinionsReceived p)) as [Hlt|Hge].
  - rewrite aggregateOne_skip in Hagg by done. simplify_eq. split; [done|].
    intros id c' Hc'. exists c'. done.
  - rewrite aggregateOne_update in Hagg by done.
    destruct (m !! id0) as [c0|] eqn:Hc0; simplify_eq/=. split.
    + intros id Hne. by apply lookup_insert_ne.
    + intros id c' Hc'. destruct (decide (id = id0)) as [->|Hne].
      * rewrite lookup_insert_eq in Hc'. simplify_eq. exists c0. done.
      * rewrite lookup_insert_ne in Hc' by done. exists c'. done.
Qed.

Lemma aggregate_loop_fields (p : Parameters) ownMana totalMana (l : list (string * list Opinion)) :
  ∀ m m', foldl_opt (aggregateOne p ownMana totalMana) m l = Some m' →
    (∀ id, id ∉ l.*1 → m' !! id = m !! id)
    ∧ ∀ id c', m' !! id = Some c' → ∃ c, m !! id = Some c ∧ same_vote c c'.
Proof.
  induction l as [|entry l IH]; intros m m' Hf; simpl in Hf.
  - simplify_eq. split; [done|]. intros id c' Hc'. exists c'. done.
  - destruct (aggregateOne p ownMana totalMana m entry) as [m1|] eqn:H1; simplify_eq/=.
    destruct (aggregateOne_fields _ _ _ _ _ _ H1) as [Hframe1 Hfields1].
    destruct (IH _ _ Hf) as [Hframe Hfields]. split.
    + intros id [Hne Hnot]%not_elem_of_cons. rewrite Hframe by done. by apply Hframe1.
    + intros id c' Hc'. destruct (Hfields id c' Hc') as (c1 & Hc1 & Hs1).
      destruct (Hfields1 id c1 Hc1) as (c & Hc & Hs). exists c. split; [done|].
      unfold same_vote in *. intuition congruence.
Qed.

(** X4: the aggregation pass writes nothing but weights and liked
    proportions: it neither adds an id to the registry nor removes one, it
    leaves the context of every id without a tally as it is, and it keeps
    the id, the type, the rounds and the opinions of every context. *)
Theorem aggregate_frame (p : Parameters) (ownMana totalMana : float64)
    (voteMap : gmap string (list Opinion)) (m m' : gmap string Context) :
  aggregate p ownMana totalMana voteMap m = Some m' →
  (∀ id, m' !! id = None ↔ m !! id = None)
  ∧ (∀ id, voteMap !! id = None → m' !! id = m !! id)
  ∧ (∀ id c c', m !! id = Some c → m' !! id = Some c' →
       ID c' = ID c ∧ Type_ c' = Type_ c ∧ Rounds c' = Rounds c ∧ Opinions c' = Opinions c).
Proof.
  unfold aggregate. intros Hagg.
  destruct (aggregate_loop_fields _ _ _ _ _ _ Hagg) as [Hframe Hfields].
  split; [by eapply aggregate_loop_dom|]. split.
  - intros id Hnone. apply Hframe. intros ([id' votes] & -> & Hin)%list_elem_of_fmap.
    apply elem_of_map_to_list in Hin. simpl in Hnone. congruence.
  - intros id c c' Hc Hc'. destruct (Hfields id c' Hc') as (c0 & Hc0 & Hs).
    by simplify_eq.
Qed.

Lemma aggregate_frame_witness :
  let c := NewContext "a" ConflictType Like in
  let d := NewContext "b" TimestampType Dislike in
  let m : gmap string Context := {[ "a" := c; "b" := d ]} in
  ∃ m', aggregate example_paras 2%float 7%float {[ "a" := [Like; Like] ]} m = Some m'
    ∧ m' !! "b" = Some d
    ∧ (Opinions <$> m' !! "a") = Some [Like].
Proof.
  intros c d m.
  destruct (aggregate example_paras 2%float 7%float {[ "a" := [Like; Like] ]} m) as [m'|] eqn:Hagg;
    [|vm_compute in Hagg; discriminate].
  destruct (aggregate_frame _ _ _ _ _ _ Hagg) as (Hdom & Hframe & Hfields).
  exists m'. split; [reflexivity|]. split.
  - rewrite Hframe; [reflexivity|]. reflexivity.
  - destruct (m' !! "a") as [c'|] eqn:Hc'.
    + destruct (Hfields "a"%string c c' eq_refl Hc') as (_ & _ & _ & Hop).
      simpl. rewrite Hop. reflexivity.
    + apply Hdom in Hc'. vm_compute in Hc'. discriminate.
Defined.

(** ** The tally of one queried giver *)

Lemma appendVotes_lookup (fuel : nat) (id : string) (o : Opinion) :
  ∀ voteMap : gmap string (list Opinion),
    default [] (appendVotes fuel id o voteMap !! id)
    = default [] (voteMap !! id) ++ replicate fuel o
    ∧ ∀ id', id' ≠ id → appendVotes fuel id o voteMap !! id' = voteMap !! id'.
Proof.
  induction fuel as [|fuel IH]; intros voteMap; simpl.
  - by rewrite app_nil_r.
  - destruct (IH (<[id := default [] (voteMap !! id) ++ [o]]> voteMap)) as [-> Hother]. split.
    + rewrite lookup_insert_eq. simpl. by rewrite <- app_assoc.
    + intros id' Hne. rewrite Hother by done. apply lookup_insert_ne. congruence.
Qed.

Lemma addOpinions_tally (ids : list string) (opinions : list Opinion) (selectedCount : Z) :
  ∀ (i : nat) (voteMap voteMap' : gmap string (list Opinion)) (queried queried' : gmap string Opinion),
    addOpinions ids i opinions selectedCount voteMap queried = Some (voteMap', queried') →
    NoDup ids →
    (∀ id, id ∉ ids → voteMap' !! id = voteMap !! id)
    ∧ ∀ k id o, ids !! k = Some id → opinions !! (i + k)%nat = Some o →
        default [] (voteMap' !! id)
        = default [] (voteMap !! id) ++ replicate (Z.to_nat selectedCount) o.
Proof.
  induction ids as [|id0 ids IH]; intros i vm vm' q q' Hadd Hnd; simpl in Hadd.
  - simplify_eq. split; [done|]. intros k id o Hk. done.
  - destruct (opinions !! i) as [o0|] eqn:Ho0; simplify_eq/=.
    apply NoDup_cons in Hnd as [Hnotin Hnd].
    destruct (IH _ _ _ _ _ Hadd Hnd) as [Hframe Htally].
    destruct (appendVotes_lookup (Z.to_nat selectedCount) id0 o0 vm) as [Hhere Hother]. split.
    + intros id [Hne Hnot]%not_elem_of_cons. rewrite Hframe by done. by apply Hother.
    + intros [|k] id o Hk Ho; simpl in Hk.
      * simplify_eq. rewrite Nat.add_0_r in Ho. simplify_eq.
        rewrite Hframe by done. exact Hhere.
      * assert (id ≠ id0) as Hne.
        { intros ->. apply Hnotin. by eapply list_elem_of_lookup_2. }
        rewrite (Htally k id o Hk) by (rewrite <- Ho; f_equal; lia).
        by rewrite Hother.
Qed.

Section QueryTask.
Context {G : Type} `{OpinionGiver G}.

(** X5: the task run for one selected giver discards an answer that is an
    error or has not the length len(conflictIDs) + len(timestampIDs): the
    tallies and the queried opinions stay as they are.  For an answer of that
    length it records one entry, carrying the giver's id and the number of
    times it was selected, and for the conflict at position i it appends
    selectedCount copies of opinions[i] to the tally and records opinions[i];
    the tallies of ids that are not put to the vote are not touched. *)
Theorem queryGiver_conflicts (conflictIDs timestampIDs : list string)
    (st : gmap string (list Opinion) * list QueriedOpinions) (g : G) (selectedCount : Z) :
  NoDup (conflictIDs ++ timestampIDs) →
  match Query g conflictIDs timestampIDs with
  | Err _ => queryGiver conflictIDs timestampIDs st (g, selectedCount) = Some st
  | Ok opinions =>
      if decide (len opinions = len conflictIDs + len timestampIDs) then
        ∃ voteMap queried,
          queryGiver conflictIDs timestampIDs st (g, selectedCount)
          = Some (voteMap, st.2 ++ [queried])
          ∧ OpinionGiverID queried = GiverID g
          ∧ TimesCounted queried = selectedCount
          ∧ (∀ i id o, conflictIDs !! i = Some id → opinions !! i = Some o →
               default [] (voteMap !! id)
               = default [] (st.1 !! id) ++ replicate (Z.to_nat selectedCount) o
               ∧ QOpinions queried !! id = Some o)
          ∧ (∀ id, id ∉ conflictIDs ++ timestampIDs → voteMap !! id = st.1 !! id)
      else queryGiver conflictIDs timestampIDs st (g, selectedCount) = Some st
  end.
Proof.
  intros Hnd. apply NoDup_app in Hnd as (Hndc & Hdisj & Hndt).
  unfold queryGiver. destruct (Query g conflictIDs timestampIDs) as [opinions|e]; [|done].
  case_decide as Hlen.
  - rewrite bool_decide_eq_false_2 by (intros Hne; by apply Hne).
    unfold len in Hlen.
    destruct (addOpinions_spec conflictIDs opinions selectedCount 0 st.1 ∅)
      as (vm1 & q1 & Hadd1 & _ & _ & Hrec1); [lia|].
    rewrite Hadd1. cbn [mbind option_bind].
    destruct (addOpinions_spec timestampIDs opinions selectedCount 0 vm1 q1)
      as (vm2 & q2 & Hadd2 & _ & Hq2 & _); [lia|].
    rewrite Hadd2. cbn [mbind option_bind].
    destruct (addOpinions_tally _ _ _ _ _ _ _ _ Hadd1 Hndc) as [Hframe1 Htally1].
    destruct (addOpinions_tally _ _ _ _ _ _ _ _ Hadd2 Hndt) as [Hframe2 _].
    eexists _, _. split; [reflexivity|]. simpl. do 2 (split; [reflexivity|]). split.
    + intros i id o Hi Ho.
      assert (id ∉ timestampIDs) as Hnt by (apply Hdisj; by eapply list_elem_of_lookup_2).
      split.
      * rewrite Hframe2 by done. by apply (Htally1 i id o).
      * rewrite Hq2 by done. rewrite (Hrec1 Hndc i id Hi). exact Ho.
    + intros id [Hc Ht]%not_elem_of_app. rewrite Hframe2 by done. by apply Hframe1.
  - rewrite bool_decide_eq_true_2 by done. reflexivity.
Qed.

End QueryTask.

Lemma queryGiver_conflicts_witness :
  ∃ voteMap queried,
    queryGiver ["c"%string] ["t"%string] (∅, []) (7%nat, 3) = Some (voteMap, [queried])
    ∧ default [] (voteMap !! "c") = [Like; Like; Like]
    ∧ QOpinions queried !! "c" = Some Like
    ∧ TimesCounted queried = 3.
Proof.
  pose proof (queryGiver_conflicts ["c"%string] ["t"%string] (∅, []) 7%nat 3) as Hq.
  cbv beta iota zeta delta [Query example_giver] in Hq.
  destruct (decide _) as [_|Hne] in Hq; [|exfalso; by apply Hne].
  destruct Hq as (vm & q & Hrun & _ & Hn & Hc & _).
  - repeat constructor; set_solver.
  - exists vm, q. split; [exact Hrun|].
    destruct (Hc 0%nat "c"%string Like eq_refl eq_refl) as [Ht Hr].
    split; [|split; [exact Hr|exact Hn]]. rewrite Ht. reflexivity.
Defined.

(** ** Contexts through a round *)

Lemma finalizeOpinions_lookup (f : FPC) (id : string) :
  ctxs (finalizeOpinions f) !! id
  = c ← ctxs f !! id; if leaves (paras f) c then None else Some c.
Proof.
  unfold finalizeOpinions. rewrite finalize_fold_exact. cbn [ctxs].
  rewrite lookup_foldl_delete.
  destruct (ctxs f !! id) as [c|] eqn:Hc; simpl.
  - destruct (leaves (paras f) c) eqn:Hl.
    + rewrite decide_True; [done|]. apply list_elem_of_fmap. exists (id, c). split; [done|].
      apply list_elem_of_filter. split; [done|]. by apply elem_of_map_to_list.
    + rewrite decide_False; [done|].
      intros ([id' c'] & -> & [Hl' Hin]%list_elem_of_filter)%list_elem_of_fmap.
      apply elem_of_map_to_list in Hin. simpl in *. congruence.
  - case_decide as Hin; [done|]. reflexivity.
Qed.

Lemma finalizeOpinions_new_events (f : FPC) :
  events (finalizeOpinions f)
  = events f ++ ((λ e, finalEvent (paras f) e.1 e.2)
                   <$> filter (λ e, leaves (paras f) e.2 = true) (map_to_list (ctxs f))).
Proof. unfold finalizeOpinions. rewrite finalize_fold_exact. reflexivity. Qed.

Lemma finalEvent_cases (p : Parameters) (id : string) (c : Context) :
  ∃ e, EvID e = id ∧ EvOpinion e = LastOpinion c ∧ EvCtx e = c
    ∧ (finalEvent p id c = Finalized e ∨ finalEvent p id c = Failed e).
Proof.
  unfold finalEvent.
  exists {| EvID := id; EvOpinion := LastOpinion c; EvCtx := c |}.
  do 3 (split; [reflexivity|]). destruct (IsFinalized _ _ c); [by left|by right].
Qed.

Lemma drain_key_ID (q : list Context) (m : gmap string Context) (qs : gset string) :
  (∀ id c, m !! id = Some c → ID c = id) →
  ∀ id c, (drain q m qs).1 !! id = Some c → ID c = id.
Proof.
  revert m qs. induction q as [|c0 q IH]; intros m qs Hm; simpl; [done|].
  apply IH. intros id c. rewrite lookup_insert_Some. intros [[<- <-]|[_ ?]]; auto.
Qed.

Section RoundContexts.
Context {G : Type} `{OpinionGiver G}.
Variable HadFirstRound : Context → bool.

(** The formation step adds at most one opinion, Like or Dislike, and writes
    no other field. *)
Lemma formOpinion_fields (p : Parameters) (rand : float64) (c : Context) :
  ID (formOpinion HadFirstRound p rand c) = ID c
  ∧ Type_ (formOpinion HadFirstRound p rand c) = Type_ c
  ∧ Rounds (formOpinion HadFirstRound p rand c) = Rounds c
  ∧ ProportionLiked (formOpinion HadFirstRound p rand c) = ProportionLiked c
  ∧ Weights (formOpinion HadFirstRound p rand c) = Weights c
  ∧ (if IsNew c then Opinions (formOpinion HadFirstRound p rand c) = Opinions c
     else ∃ o, (o = Like ∨ o = Dislike)
            ∧ Opinions (formOpinion HadFirstRound p rand c) = Opinions c ++ [o]).
Proof.
  unfold formOpinion. destruct (IsNew c); [done|].
  destruct (setThreshold HadFirstRound p c) as [lower upper].
  destruct (_ <=? _)%float; simpl; eauto 10.
Qed.

(** The query stage: the contexts afterwards are the contexts before, up to
    weights and liked proportions; on an error they are the same, and the
    error is one of three. *)
Lemma queryOpinions_contexts (f f' : FPC) (world : Oracle G) res :
  queryOpinions f world = Some (f', res) →
  (∀ id c', ctxs f' !! id = Some c' → ∃ c, ctxs f !! id = Some c ∧ same_vote c c')
  ∧ ∀ e, res = Err e →
      ctxs f' = ctxs f
      ∧ (voteContextIDs f).1 ++ (voteContextIDs f).2 ≠ []
      ∧ (opinionGiverFunc world = Err e
         ∨ (opinionGiverFunc world = Ok [] ∧ e = ErrNoOpinionGiversAvailable)
         ∨ ownWeightRetrieverFunc world = Err e).
Proof.
  assert (∀ m : gmap string Context,
            ∀ id c', m !! id = Some c' → ∃ c, m !! id = Some c ∧ same_vote c c') as Hrefl.
  { intros m id c' Hc'. exists c'. done. }
  unfold queryOpinions. intros Hq.
  destruct (voteContextIDs f) as [conflictIDs timestampIDs]. cbn [fst snd].
  assert (bool_decide (len conflictIDs = 0) && bool_decide (len timestampIDs = 0) = false
          → conflictIDs ++ timestampIDs ≠ []) as Hne.
  { intros Hb Hnil. apply app_eq_nil in Hnil as [-> ->]. done. }
  destruct (_ && _); [simplify_eq; split; [apply Hrefl|done]|].
  specialize (Hne eq_refl).
  destruct (opinionGiverFunc world) as [opinionGivers|e0].
  2:{ simplify_eq. split; [apply Hrefl|]. intros e [= <-]. naive_solver. }
  case_bool_decide as Hlen.
  { simplify_eq. split; [apply Hrefl|]. intros e [= <-].
    unfold len in Hlen. destruct opinionGivers; [|simpl in Hlen; lia]. naive_solver. }
  destruct (ManaBasedSampling _ _ _ _) as [[[toQuery total] rng]|]; simplify_eq/=.
  destruct (ownWeightRetrieverFunc world) as [ownMana|e0].
  2:{ simplify_eq. split; [apply Hrefl|]. intros e [= <-]. naive_solver. }
  destruct (foldl_opt _ _ _) as [[voteMap allQueried]|]; simplify_eq/=.
  destruct (aggregate _ _ _ _ _) as [m|] eqn:Hagg; simplify_eq/=.
  split; [|done]. unfold aggregate in Hagg.
  apply (aggregate_loop_fields _ _ _ _ _ _ Hagg).
Qed.

(** A context of the registry when a round returns was in the registry
    right after the queue was drained; since then it has ticked once, has gone
    through the formation step if the flag was up, and has kept its liked
    proportion and weights if the round returns an error. *)
Lemma Round_contexts (f f' : FPC) (rand : float64) (world : Oracle G) err :
  Round HadFirstRound f rand world = Some (f', err) →
  ∀ id c', ctxs f' !! id = Some c' →
    ∃ c, ctxs (enqueue f) !! id = Some c
      ∧ ID c' = ID c ∧ Type_ c' = Type_ c
      ∧ Rounds c' = int_wrap (Rounds c + 1)
      ∧ Opinions c' = Opinions (if lastRoundCompletedSuccessfully f
                                then formOpinion HadFirstRound (paras f) rand c else c)
      ∧ (err ≠ None → ProportionLiked c' = ProportionLiked c ∧ Weights c' = Weights c).
Proof.
  unfold Round. intros HR id c' Hc'.
  assert (paras (enqueue f) = paras f) as Hp by (unfold enqueue; by destruct (drain _ _ _)).
  rewrite enqueue_flag in HR.
  destruct (queryOpinions _ world) as [[f4 res]|] eqn:Hq; simplify_eq/=.
  destruct (queryOpinions_contexts _ _ _ _ Hq) as [Hfields Herr].
  assert (ctxs f' = ctxs f4) as Hf' by (destruct res; by simplify_eq/=).
  rewrite Hf' in Hc'. destruct (Hfields id c' Hc') as (c3 & Hc3 & Hid & Hty & Hr & Hop).
  assert (err ≠ None → c' = c3) as Hsame.
  { intros Hne. destruct res as [q|e]; simplify_eq/=; try done.
    destruct (Herr e eq_refl) as (Heq & _). rewrite Heq in Hc'. simpl in Hc'. congruence. }
  simpl in Hc3. rewrite lookup_fmap in Hc3.
  destruct (lastRoundCompletedSuccessfully f).
  - rewrite finalizeOpinions_lookup in Hc3. simpl in Hc3. rewrite lookup_fmap in Hc3.
    destruct (ctxs (enqueue f) !! id) as [c|] eqn:Hc; simpl in Hc3; [|done].
    destruct (leaves _ _); simpl in Hc3; simplify_eq.
    destruct (formOpinion_fields (paras (enqueue f)) rand c) as (Hi & Ht & Hro & Hpl & Hw & _).
    exists c. rewrite Hp in *. split; [done|]. rewrite Hid, Hty, Hr, Hop. simpl.
    split; [done|]. split; [done|]. split; [by rewrite Hro|]. split; [done|].
    intros Hne. rewrite (Hsame Hne). simpl. done.
  - destruct (ctxs (enqueue f) !! id) as [c|] eqn:Hc; simplify_eq/=.
    exists c. split; [done|]. rewrite Hid, Hty, Hr, Hop. simpl. do 4 (split; [done|]).
    intros Hne. rewrite (Hsame Hne). done.
Qed.

(** What becomes of a context that is in the registry right after the queue
    was drained: it is in the registry when the round returns, or the flag
    was up, the context left in the finalization pass and its event was
    triggered. *)
Lemma Round_fate (f f' : FPC) (rand : float64) (world : Oracle G) err :
  Round HadFirstRound f rand world = Some (f', err) →
  ∀ id c, ctxs (enqueue f) !! id = Some c →
    is_Some (ctxs f' !! id)
    ∨ (lastRoundCompletedSuccessfully f = true
       ∧ leaves (paras f) (formOpinion HadFirstRound (paras f) rand c) = true
       ∧ emitted f f' (finalEvent (paras f) id (formOpinion HadFirstRound (paras f) rand c))).
Proof.
  unfold Round. intros HR id c Hc.
  assert (paras (enqueue f) = paras f) as Hp by (unfold enqueue; by destruct (drain _ _ _)).
  rewrite enqueue_flag in HR.
  destruct (queryOpinions _ world) as [[f4 res]|] eqn:Hq; simplify_eq/=.
  apply queryOpinions_frame in Hq as (Hev & _ & _ & _ & _ & Hdom).
  assert (ctxs f' = ctxs f4 ∧ ∃ tail, events f' = events f4 ++ tail) as [Hf' [tail Htail]].
  { destruct res; simplify_eq/=; split; try done; [by eexists|exists []; by rewrite app_nil_r]. }
  rewrite Hf'. simpl in Hdom.
  destruct (lastRoundCompletedSuccessfully f) eqn:Hflag.
  - destruct (leaves (paras f) (formOpinion HadFirstRound (paras f) rand c)) eqn:Hl.
    + right. split; [done|]. split; [done|].
      eexists. split.
      { rewrite Htail, Hev. simpl. rewrite finalizeOpinions_new_events. simpl.
        rewrite enqueue_events, Hp, <- app_assoc. reflexivity. }
      apply elem_of_app. left. apply list_elem_of_fmap.
      exists (id, formOpinion HadFirstRound (paras f) rand c). split; [done|].
      apply list_elem_of_filter. split; [done|].
      apply elem_of_map_to_list. by rewrite lookup_fmap, Hc.
    + left. apply not_eq_None_Some. rewrite Hdom, lookup_fmap.
      rewrite finalizeOpinions_lookup. simpl. rewrite lookup_fmap, Hc, Hp. simpl.
      by rewrite Hl.
  - left. apply not_eq_None_Some. rewrite Hdom, lookup_fmap, Hc. done.
Qed.


End RoundContexts.

Lemma drain_lookup_Some (q : list Context) (m : gmap string Context) (qs : gset string) id c :
  (drain q m qs).1 !! id = Some c → m !! id = Some c ∨ (c ∈ q ∧ ID c = id).
Proof.
  revert m qs. induction q as [|c0 q IH]; intros m qs; simpl; [by left|].
  intros [Hm|[Hin Hid]]%IH; [|right; split; [by right|done]].
  apply lookup_insert_Some in Hm as [[<- <-]|[_ Hm]]; [right; split; [by left|done]|by left].
Qed.

Lemma voteContextIDs_typed (f : FPC) (id : string) :
  id ∈ (voteContextIDs f).1 ++ (voteContextIDs f).2 →
  ∃ c, ctxs f !! id = Some c ∧ (Type_ c = ConflictType ∨ Type_ c = TimestampType).
Proof.
  unfold voteContextIDs. rewrite voteContextIDs_filter. cbn [fst snd app].
  intros [Hin|Hin]%elem_of_app;
    apply list_elem_of_fmap in Hin as ([id' c] & -> & [Hty Hin]%list_elem_of_filter);
    apply elem_of_map_to_list in Hin; eauto.
Qed.

(** ** Rounds, as their caller sees them *)

Section RoundProps.
Context {G : Type} `{OpinionGiver G}.
Variable HadFirstRound : Context → bool.

(** X6: a round returns an error only when there is something to vote on and
    the supplier of opinion givers fails (that error is returned), or it
    returns no giver (NoOpinionGiversAvailable is returned), or the own
    weight retriever fails (that error is returned).  Such a round triggers
    no RoundExecuted, and the contexts it leaves in the registry have the
    liked proportion and the weights they had before. *)
Theorem Round_error_cases (f f' : FPC) (rand : float64) (world : Oracle G) (e : error) :
  Round HadFirstRound f rand world = Some (f', Some e) →
  (opinionGiverFunc world = Err e
   ∨ (opinionGiverFunc world = Ok [] ∧ e = ErrNoOpinionGiversAvailable)
   ∨ ownWeightRetrieverFunc world = Err e)
  ∧ (∃ id c, ctxs f' !! id = Some c ∧ (Type_ c = ConflictType ∨ Type_ c = TimestampType))
  ∧ (∀ s, ¬ emitted f f' (RoundExecuted s))
  ∧ (∀ id c', ctxs f' !! id = Some c' →
       ∃ c, ctxs (enqueue f) !! id = Some c
         ∧ ProportionLiked c' = ProportionLiked c ∧ Weights c' = Weights c).
Proof.
  intros HR. split; [|split; [|split]].
  - unfold Round in HR.
    destruct (queryOpinions _ world) as [[f4 res]|] eqn:Hq; simplify_eq/=.
    destruct res as [q|e']; simplify_eq/=.
    destruct (queryOpinions_contexts _ _ _ _ Hq) as [_ Herr].
    by destruct (Herr e eq_refl) as (_ & _ & ?).
  - unfold Round in HR. set (f3 := tickAll _) in HR.
    destruct (queryOpinions f3 world) as [[f4 res]|] eqn:Hq; simplify_eq/=.
    destruct res as [q|e']; simplify_eq/=.
    destruct (queryOpinions_contexts _ _ _ _ Hq) as [_ Herr].
    destruct (Herr e eq_refl) as (Heq & Hne & _). rewrite Heq.
    destruct ((voteContextIDs f3).1 ++ (voteContextIDs f3).2) as [|id ids] eqn:Hids; [done|].
    destruct (voteContextIDs_typed f3 id) as (c & Hc & Hty); [rewrite Hids; by left|].
    eauto.
  - intros s (new' & Hev' & Hin).
    destruct (Round_events _ _ _ _ _ _ HR) as (new & executed & Hev & Hnew & ->).
    rewrite Hev, app_nil_r in Hev'. apply app_inv_head in Hev'. subst new'.
    destruct (Hnew _ Hin) as (e' & [?|?] & _); discriminate.
  - intros id c' Hc'.
    destruct (Round_contexts _ _ _ _ _ _ HR id c' Hc') as (c & Hc & _ & _ & _ & _ & Hsame).
    exists c. split; [done|]. by apply Hsame.
Qed.

(** X7: a context that is in the registry when a round returns was in the
    registry or in the queue when the round was called; it has the same id
    and type, its rounds have been incremented exactly once (also when the
    round returns an error), and its opinions are those it had, followed by
    at most one more opinion, which is Like or Dislike. *)
Theorem Round_ticks_once (f f' : FPC) (rand : float64) (world : Oracle G) err :
  Round HadFirstRound f rand world = Some (f', err) →
  ∀ id c', ctxs f' !! id = Some c' →
    ∃ c, (ctxs f !! id = Some c ∨ (c ∈ queue f ∧ ID c = id))
      ∧ ID c' = ID c ∧ Type_ c' = Type_ c
      ∧ Rounds c' = int_wrap (Rounds c + 1)
      ∧ (MinInt64 <= Rounds c < MaxInt64 → Rounds c' = Rounds c + 1)
      ∧ (Opinions c' = Opinions c
         ∨ ∃ o, (o = Like ∨ o = Dislike) ∧ Opinions c' = Opinions c ++ [o]).
Proof.
  intros HR id c' Hc'.
  destruct (Round_contexts _ _ _ _ _ _ HR id c' Hc') as (c & Hc & Hid & Hty & Hr & Hop & _).
  exists c. rewrite enqueue_ctxs in Hc. split; [by apply drain_lookup_Some in Hc|].
  do 3 (split; [done|]). split.
  - intros Hrange. rewrite Hr. apply int_wrap_id. unfold is_int. lia.
  - rewrite Hop. destruct (lastRoundCompletedSuccessfully f); [|by left].
    destruct (formOpinion_fields HadFirstRound (paras f) rand c) as (_ & _ & _ & _ & _ & Hform).
    destruct (IsNew c); [by left|by right].
Qed.

(** X8: a round that is called with the flag down forms no opinion and
    finalizes nothing: it triggers neither Finalized nor Failed, it leaves in
    the registry every context that was in the registry or in the queue, and
    the opinions of every context are untouched. *)
Theorem Round_flag_down (f f' : FPC) (rand : float64) (world : Oracle G) err :
  lastRoundCompletedSuccessfully f = false →
  Round HadFirstRound f rand world = Some (f', err) →
  (∀ e, ¬ emitted f f' (Finalized e) ∧ ¬ emitted f f' (Failed e))
  ∧ (∀ id, id ∈ ID <$> queue f ∨ is_Some (ctxs f !! id) → is_Some (ctxs f' !! id))
  ∧ (∀ id c', ctxs f' !! id = Some c' →
       ∃ c, (ctxs f !! id = Some c ∨ (c ∈ queue f ∧ ID c = id))
         ∧ Opinions c' = Opinions c).
Proof.
  intros Hflag HR. split; [|split].
  - unfold Round in HR. rewrite enqueue_flag, Hflag in HR.
    destruct (queryOpinions _ world) as [[f4 res]|] eqn:Hq; simplify_eq/=.
    apply queryOpinions_frame in Hq as (Hev & _). simpl in Hev. rewrite enqueue_events in Hev.
    assert (∀ ev, emitted f f' ev → ∃ s, ev = RoundExecuted s) as Honly.
    { intros ev (new & Hnew & Hin). destruct res as [q|e']; simplify_eq/=.
      - rewrite Hev in Hnew. apply app_inv_head in Hnew. subst new.
        apply list_elem_of_singleton in Hin. eauto.
      - rewrite Hev in Hnew. rewrite <- (app_nil_r (events f)) in Hnew at 1.
        apply app_inv_head in Hnew. subst new. by apply elem_of_nil in Hin. }
    intros e. split; intros [s Hs]%Honly; discriminate.
  - intros id Hid.
    assert (is_Some (ctxs (enqueue f) !! id)) as [c Hc].
    { apply not_eq_None_Some. rewrite enqueue_ctxs, drain_lookup_None.
      intros [Hnone Hnot]. destruct Hid as [?|[? ?]]; [done|congruence]. }
    destruct (Round_fate _ _ _ _ _ _ HR id c Hc) as [?|(Hup & _)]; [done|congruence].
  - intros id c' Hc'.
    destruct (Round_contexts _ _ _ _ _ _ HR id c' Hc') as (c & Hc & _ & _ & _ & Hop & _).
    exists c. rewrite enqueue_ctxs in Hc. split; [by apply drain_lookup_Some in Hc|].
    by rewrite Hflag in Hop.
Qed.

End RoundProps.

Lemma Round_error_cases_witness :
  ∃ f', Round example_HadFirstRound two_votes 0.5%float supplier_fails
        = Some (f', Some (ErrExternal "no connection"))
    ∧ ∀ s, ¬ emitted two_votes f' (RoundExecuted s).
Proof.
  destruct (Round example_HadFirstRound two_votes 0.5%float supplier_fails)
    as [[f' err]|] eqn:HR; [|vm_compute in HR; discriminate].
  assert (err = Some (ErrExternal "no connection")) as ->
    by (vm_compute in HR; congruence).
  exists f'. split; [reflexivity|].
  by destruct (Round_error_cases example_HadFirstRound _ _ _ _ _ HR) as (_ & _ & ? & _).
Defined.

Lemma Round_ticks_once_witness :
  ∃ f' c', Round example_HadFirstRound two_votes 0.5%float one_giver = Some (f', None)
    ∧ ctxs f' !! "c" = Some c' ∧ Rounds c' = 1 ∧ Type_ c' = ConflictType.
Proof.
  destruct (Round example_HadFirstRound two_votes 0.5%float one_giver)
    as [[f' err]|] eqn:HR; [|vm_compute in HR; discriminate].
  assert (err = None) as -> by (vm_compute in HR; congruence).
  destruct (ctxs f' !! "c") as [c'|] eqn:Hc';
    [|vm_compute in HR; injection HR as <-; vm_compute in Hc'; discriminate].
  destruct (Round_ticks_once example_HadFirstRound _ _ _ _ _ HR "c"%string c' Hc')
    as (c & Hc & _ & Hty & _ & Hr & _).
  assert (c = NewContext "c" ConflictType Like) as ->.
  { destruct Hc as [Hc|[Hc Hid]]; [vm_compute in Hc; discriminate|].
    vm_compute in Hc. apply elem_of_cons in Hc as [->|Hc]; [reflexivity|].
    apply list_elem_of_singleton in Hc. subst c. vm_compute in Hid. discriminate. }
  exists f', c'. split; [reflexivity|]. split; [exact Hc'|]. split.
  - rewrite Hr; [reflexivity|]. vm_compute. split; [discriminate|reflexivity].
  - exact Hty.
Defined.

Lemma Round_flag_down_witness :
  ∃ f' err, Round example_HadFirstRound two_votes 0.5%float one_giver = Some (f', err)
    ∧ is_Some (ctxs f' !! "c") ∧ is_Some (ctxs f' !! "t")
    ∧ ∀ e, ¬ emitted two_votes f' (Failed e).
Proof.
  destruct (Round example_HadFirstRound two_votes 0.5%float one_giver)
    as [[f' err]|] eqn:HR; [|vm_compute in HR; discriminate].
  destruct (Round_flag_down example_HadFirstRound two_votes f' 0.5%float one_giver err
              eq_refl HR) as (Hno & Hkeep & _).
  exists f', err. split; [reflexivity|]. split; [|split].
  - apply Hkeep. left. vm_compute. by left.
  - apply Hkeep. left. vm_compute. right. by left.
  - intros e. apply Hno.
Defined.

Section RoundFates.
Context {G : Type} `{OpinionGiver G}.
Variable HadFirstRound : Context → bool.

Lemma emitted_gone (f f' : FPC) (rand : float64) (world : Oracle G) err e :
  Round HadFirstRound f rand world = Some (f', err) →
  emitted f f' (Finalized e) ∨ emitted f f' (Failed e) →
  ctxs f' !! EvID e = None.
Proof.
  intros HR Hem.
  destruct (Round_events _ _ _ _ _ _ HR) as (new & executed & Hev & Hnew & Hex).
  assert (Finalized e ∈ new ∨ Failed e ∈ new) as Hin.
  { destruct Hem as [(new' & Hev' & Hin)|(new' & Hev' & Hin)];
      rewrite Hev in Hev'; apply app_inv_head in Hev'; subst new';
      apply elem_of_app in Hin as [Hin|Hin]; auto;
      destruct err; [|destruct Hex as [s ->]| |destruct Hex as [s ->]]; subst;
      try (by apply elem_of_nil in Hin);
      apply list_elem_of_singleton in Hin; discriminate. }
  destruct Hin as [Hin|Hin]; destruct (Hnew _ Hin) as (e' & [?|?] & Hnone); by simplify_eq.
Qed.

(** X9: no submission is lost in a round.  An id that is queued or active when
    a round is called is either active when the round returns, and then the
    round has triggered neither Finalized nor Failed for it, or it is gone from
    the registry, and then the round has triggered Finalized or Failed for
    it. *)
Theorem Round_keeps_or_reports (f f' : FPC) (rand : float64) (world : Oracle G) err :
  Round HadFirstRound f rand world = Some (f', err) →
  ∀ id, id ∈ ID <$> queue f ∨ is_Some (ctxs f !! id) →
    (is_Some (ctxs f' !! id)
     ∧ ∀ e, EvID e = id → ¬ emitted f f' (Finalized e) ∧ ¬ emitted f f' (Failed e))
    ∨ (ctxs f' !! id = None
       ∧ ∃ e, EvID e = id ∧ (emitted f f' (Finalized e) ∨ emitted f f' (Failed e))).
Proof.
  intros HR id Hid.
  assert (is_Some (ctxs (enqueue f) !! id)) as [c Hc].
  { apply not_eq_None_Some. rewrite enqueue_ctxs, drain_lookup_None.
    intros [Hnone Hnot]. destruct Hid as [?|[? ?]]; [done|congruence]. }
  destruct (Round_fate _ _ _ _ _ _ HR id c Hc) as [[c' Hc']|(_ & _ & Hem)].
  - left. split; [by eexists|]. intros e <-.
    split; intros Hem; eapply emitted_gone in HR; eauto; congruence.
  - right.
    destruct (finalEvent_cases (paras f) id (formOpinion HadFirstRound (paras f) rand c))
      as (e & He & _ & _ & Hcase).
    assert (emitted f f' (Finalized e) ∨ emitted f f' (Failed e)) as Hem'.
    { destruct Hcase as [Heq|Heq]; rewrite Heq in Hem; auto. }
    split; [|by exists e]. rewrite <- He. by eapply emitted_gone.
Qed.

(** X10: the events of a round, in the order in which they are triggered:
    first the Finalized and Failed events of the finalization pass, none if
    the flag was down; each carries the last opinion of the context it
    carries, and its id is no longer in the registry when the round returns.
    Then, exactly when the round returns no error, one RoundExecuted event,
    which carries the random number of the round and the registry as it is
    when the round returns; the flag is up after such a round. *)
Theorem Round_event_log (f f' : FPC) (rand : float64) (world : Oracle G) err :
  Round HadFirstRound f rand world = Some (f', err) →
  ∃ gone executed,
    events f' = events f ++ gone ++ executed
    ∧ (∀ ev, ev ∈ gone →
         ∃ e, (ev = Finalized e ∨ ev = Failed e)
           ∧ EvOpinion e = LastOpinion (EvCtx e)
           ∧ ctxs f' !! EvID e = None)
    ∧ (lastRoundCompletedSuccessfully f = false → gone = [])
    ∧ match err with
      | None => lastRoundCompletedSuccessfully f' = true
                ∧ ∃ queried, executed = [RoundExecuted {| RandUsed := rand;
                                                          ActiveVoteContexts := ctxs f';
                                                          QueriedOpinions_ := queried |}]
      | Some _ => executed = []
      end.
Proof.
  intros HR. pose proof HR as HR'. unfold Round in HR.
  rewrite enqueue_flag in HR.
  set (f2 := if lastRoundCompletedSuccessfully f
             then finalizeOpinions (formOpinions HadFirstRound (enqueue f) rand)
             else enqueue f) in HR.
  assert (∃ gone, events f2 = events f ++ gone
            ∧ (lastRoundCompletedSuccessfully f = false → gone = [])
            ∧ ∀ ev, ev ∈ gone → ∃ e, (ev = Finalized e ∨ ev = Failed e)
                                   ∧ EvOpinion e = LastOpinion (EvCtx e))
    as (gone & Hev2 & Hdown & Hgone).
  { unfold f2. destruct (lastRoundCompletedSuccessfully f).
    - eexists. split.
      { rewrite finalizeOpinions_new_events. simpl. rewrite enqueue_events. reflexivity. }
      split; [done|].
      intros ev ([id c] & -> & _)%list_elem_of_fmap. simpl.
      destruct (finalEvent_cases (paras (enqueue f)) id c) as (e & _ & Ho & Hc & Hcase).
      exists e. split; [done|]. by rewrite Hc.
    - exists []. rewrite enqueue_events, app_nil_r. split; [done|]. split; [done|].
      intros ev Hin. by apply elem_of_nil in Hin. }
  destruct (queryOpinions (tickAll f2) world) as [[f4 res]|] eqn:Hq; simplify_eq/=.
  apply queryOpinions_frame in Hq as (Hev4 & _). simpl in Hev4.
  assert (∃ executed, events f' = events f ++ gone ++ executed
            ∧ match err with
              | None => lastRoundCompletedSuccessfully f' = true
                        ∧ ∃ queried, executed
                            = [RoundExecuted {| RandUsed := rand;
                                                ActiveVoteContexts := ctxs f';
                                                QueriedOpinions_ := queried |}]
              | Some _ => executed = []
              end) as (executed & Hev & Hex).
  { destruct res as [queried|e]; simplify_eq/=.
    - eexists. rewrite Hev4, Hev2, <- app_assoc. split; [reflexivity|]. eauto.
    - exists []. rewrite Hev4, Hev2, app_nil_r. done. }
  exists gone, executed. split; [done|]. split; [|done].
  intros ev Hin. destruct (Hgone ev Hin) as (e & Hcase & Ho). exists e.
  split; [done|]. split; [done|]. apply (emitted_gone _ _ _ _ _ _ HR').
  assert (emitted f f' ev) as Hem.
  { exists (gone ++ executed). split; [done|]. apply elem_of_app. by left. }
  destruct Hcase as [->| ->]; auto.
Qed.

(** X11: a submitted item enters the vote with the next round.  When a
    submission has succeeded and a round follows, either the id is active
    after the round, with the submitted type, its initial opinion as its only
    opinion and one round behind it, or the round has finalized or failed it
    at once and has triggered its event, with the initial opinion. *)
Theorem Vote_then_Round (f f1 f2 : FPC) (id : string) (objectType : ObjectType)
    (initOpn : Opinion) (rand : float64) (world : Oracle G) err :
  Vote f id objectType initOpn = (f1, None) →
  Round HadFirstRound f1 rand world = Some (f2, err) →
  (∃ c, ctxs f2 !! id = Some c ∧ ID c = id ∧ Type_ c = objectType
        ∧ Opinions c = [initOpn] ∧ Rounds c = 1)
  ∨ (ctxs f2 !! id = None
     ∧ ∃ e, EvID e = id ∧ EvOpinion e = initOpn
         ∧ (emitted f1 f2 (Finalized e) ∨ emitted f1 f2 (Failed e))).
Proof.
  intros HV HR.
  assert (ctxs (enqueue f1) !! id = Some (NewContext id objectType initOpn)) as Hc.
  { unfold Vote in HV. repeat case_decide; simplify_eq/=.
    rewrite enqueue_ctxs. simpl. rewrite drain_app. simpl. apply lookup_insert_eq. }
  assert (formOpinion HadFirstRound (paras f1) rand (NewContext id objectType initOpn)
          = NewContext id objectType initOpn) as Hform by reflexivity.
  destruct (Round_fate _ _ _ _ _ _ HR id _ Hc) as [[c' Hc']|(_ & _ & Hem)].
  - left. exists c'. split; [done|].
    destruct (Round_contexts _ _ _ _ _ _ HR id c' Hc') as (c & Hc0 & Hid & Hty & Hr & Hop & _).
    rewrite Hc in Hc0. simplify_eq. rewrite Hid, Hty, Hr, Hop.
    destruct (lastRoundCompletedSuccessfully f1); [rewrite Hform|]; done.
  - right. rewrite Hform in Hem.
    destruct (finalEvent_cases (paras f1) id (NewContext id objectType initOpn))
      as (e & He & Ho & _ & Hcase).
    assert (emitted f1 f2 (Finalized e) ∨ emitted f1 f2 (Failed e)) as Hem'.
    { destruct Hcase as [Heq|Heq]; rewrite Heq in Hem; auto. }
    split; [rewrite <- He; by eapply emitted_gone|]. exists e. done.
Qed.

(** X12: on every engine that the operations produce from a new one, the
    queue set holds exactly the ids of the queue, no id is queued twice, no
    queued id is in the registry, every context of the registry is stored
    under its own id, and every queued context is new (no round yet). *)
Theorem reachable_ids_unique (f : FPC) :
  reachable HadFirstRound f →
  queue_consistent f
  ∧ NoDup (ID <$> queue f)
  ∧ (∀ id, id ∈ ID <$> queue f → ctxs f !! id = None)
  ∧ (∀ id c, ctxs f !! id = Some c → ID c = id)
  ∧ (∀ c, c ∈ queue f → Rounds c = 0).
Proof.
  induction 1 as [p rng|f rng _ IH|f id objectType initOpn _ (IHq & IHnd & IHd & IHk & IHn)
                 |f f' rand world err _ (IHq & IHnd & IHd & IHk & IHn) HR].
  - split; [apply queue_consistent_New|]. simpl. split; [constructor|].
    split; [intros id Hin; by apply elem_of_nil in Hin|].
    split; [intros id c Hc; by rewrite lookup_empty in Hc|].
    intros c Hin. by apply elem_of_nil in Hin.
  - exact IH.
  - split; [by apply queue_consistent_Vote|].
    unfold Vote. repeat case_decide; try done. simpl.
    assert (ctxs f !! id = None) as Hnone.
    { destruct (ctxs f !! id) eqn:Hc; [|done]. exfalso. eauto. }
    rewrite fmap_app. simpl. split; [|split; [|split]].
    + apply NoDup_app. split; [done|]. split; [|apply NoDup_singleton].
      intros i Hi ->%list_elem_of_singleton. by apply (IHq id) in Hi.
    + intros i [Hi| ->%list_elem_of_singleton]%elem_of_app; [by apply IHd|done].
    + done.
    + intros c [Hc| ->%list_elem_of_singleton]%elem_of_app; [by apply IHn|done].
  - split; [by eapply queue_consistent_Round|].
    destruct (Round_queue _ _ _ _ _ _ HR) as [-> _]. simpl.
    split; [constructor|]. split; [intros id Hin; by apply elem_of_nil in Hin|].
    split; [|intros c Hin; by apply elem_of_nil in Hin].
    intros id c' Hc'.
    destruct (Round_contexts _ _ _ _ _ _ HR id c' Hc') as (c & Hc & -> & _).
    rewrite enqueue_ctxs in Hc. by eapply drain_key_ID.
Qed.


End RoundFates.

Lemma Round_keeps_or_reports_witness :
  ∃ f' err, Round example_HadFirstRound two_votes 0.5%float one_giver = Some (f', err)
    ∧ is_Some (ctxs f' !! "t")
    ∧ ∀ e, EvID e = "t"%string → ¬ emitted two_votes f' (Failed e).
Proof.
  destruct (Round example_HadFirstRound two_votes 0.5%float one_giver)
    as [[f' err]|] eqn:HR; [|vm_compute in HR; discriminate].
  exists f', err. split; [reflexivity|].
  destruct (Round_keeps_or_reports example_HadFirstRound _ _ _ _ _ HR "t"%string)
    as [[Hsome Hno]|[Hnone _]].
  - left. vm_compute. right. by left.
  - split; [exact Hsome|]. intros e He. by apply Hno.
  - exfalso. vm_compute in HR. injection HR as <- _. vm_compute in Hnone. discriminate.
Defined.

Lemma Round_event_log_witness :
  ∃ f' queried, Round example_HadFirstRound two_votes 0.5%float one_giver = Some (f', None)
    ∧ events f' = [RoundExecuted {| RandUsed := 0.5%float; ActiveVoteContexts := ctxs f';
                                    QueriedOpinions_ := queried |}].
Proof.
  destruct (Round example_HadFirstRound two_votes 0.5%float one_giver)
    as [[f' err]|] eqn:HR; [|vm_compute in HR; discriminate].
  assert (err = None) as -> by (vm_compute in HR; congruence).
  destruct (Round_event_log example_HadFirstRound _ _ _ _ _ HR)
    as (gone & executed & Hev & _ & Hdown & _ & queried & ->).
  rewrite (Hdown eq_refl) in Hev. exists f', queried. split; [reflexivity|]. exact Hev.
Defined.

Lemma Vote_then_Round_witness :
  ∃ f1 f2 c, Vote (New example_paras example_rng) "a" ConflictType Like = (f1, None)
    ∧ Round example_HadFirstRound f1 0.5%float no_givers
      = Some (f2, Some ErrNoOpinionGiversAvailable)
    ∧ ctxs f2 !! "a" = Some c ∧ Opinions c = [Like] ∧ Rounds c = 1.
Proof.
  destruct (Vote (New example_paras example_rng) "a" ConflictType Like) as [f1 o] eqn:HV.
  assert (o = None) as -> by (vm_compute in HV; congruence).
  destruct (Round example_HadFirstRound f1 0.5%float no_givers) as [[f2 err]|] eqn:HR;
    [|vm_compute in HV; injection HV as <-; vm_compute in HR; discriminate].
  assert (err = Some ErrNoOpinionGiversAvailable) as ->.
  { vm_compute in HV. injection HV as <-. vm_compute in HR. congruence. }
  destruct (Vote_then_Round example_HadFirstRound _ _ _ _ _ _ _ _ _ HV HR)
    as [(c & Hc & _ & _ & Hop & Hr)|[Hnone _]].
  - exists f1, f2, c. done.
  - exfalso. vm_compute in HV. injection HV as <-. vm_compute in HR. injection HR as <-.
    vm_compute in Hnone. discriminate.
Defined.

Lemma reachable_ids_unique_witness :
  reachable (G := nat) example_HadFirstRound two_votes
  ∧ NoDup (ID <$> queue two_votes)
  ∧ ctxs two_votes !! "c" = None.
Proof.
  assert (reachable (G := nat) example_HadFirstRound two_votes) as Hreach.
  { unfold two_votes. do 2 apply reachable_Vote. apply reachable_New. }
  split; [exact Hreach|].
  destruct (reachable_ids_unique (G := nat) example_HadFirstRound two_votes Hreach)
    as (_ & Hnd & Hd & _).
  split; [exact Hnd|]. apply Hd. vm_compute. by left.
Defined.


(** ** The givers that a round queries *)

Section Sample.
Context {G : Type} `{OpinionGiver G}.
Variable HadFirstRound : Context → bool.

Lemma distinct_le_length (sel : list G) : (distinct sel ≤ length sel)%nat.
Proof.
  induction sel as [|g sel IH] using rev_ind.
  - change (distinct []) with (size (∅ : gset G)). by rewrite size_empty.
  - pose proof (distinct_snoc sel g). rewrite length_app. simpl. lia.
Qed.

(** X14: the uniform fallback on a list of givers that is not empty makes
    exactly querySampleSize draws (none for a negative size), whatever the
    attempt cap is: the counts of the map it returns sum to the sample size,
    every recorded giver is a giver of the list with a count of at least 1,
    and the random source has been called once per draw. *)
Theorem UniformSampling_counts (gs : list G) (maxQuerySampleSize querySampleSize : Z)
    (rng : Rand) :
  gs ≠ [] → is_int querySampleSize →
  ∃ m rng', UniformSampling gs maxQuerySampleSize querySampleSize rng = Some (m, rng')
    ∧ sumCounts m = Z.max 0 querySampleSize
    ∧ (∀ g c, m !! g = Some c → 1 <= c ∧ g ∈ gs)
    ∧ Z.of_nat (size m) <= Z.max 0 querySampleSize
    ∧ rng_calls rng' = (rng_calls rng + Z.to_nat querySampleSize)%nat
    ∧ ∀ cap, UniformSampling gs cap querySampleSize rng = Some (m, rng').
Proof.
  intros Hne Hqss. unfold is_int, MinInt64, MaxInt64 in Hqss. unfold UniformSampling.
  pose proof (uniformDraws_refines gs (Z.to_nat querySampleSize) Hne [] rng) as Hu.
  change (countMap []) with (∅ : gmap G Z) in Hu.
  rewrite Hu by (unfold len, MaxInt64; simpl; lia). clear Hu. simpl.
  destruct (uniformSelection_props gs (rng_ints rng) (Z.to_nat querySampleSize) Hne
              (rng_calls rng)) as [Hlen Hin].
  eexists _, _. split; [reflexivity|]. split; [|split; [|split; [|split]]].
  - rewrite sumCounts_countMap. unfold len. rewrite Hlen. lia.
  - intros g c Hc. apply countMap_lookup_Some in Hc as [Hg Hc]. split; [lia|by apply Hin].
  - rewrite size_countMap.
    pose proof (distinct_le_length
                  (uniformSelection (Z.to_nat querySampleSize) gs (rng_ints rng) (rng_calls rng))).
    lia.
  - reflexivity.
  - done.
Qed.

(** X15: on an empty list of givers the sampler panics for a positive sample
    size, since the total mana 0 is within the tolerance and the uniform
    fallback asks the random source for a number below 0; for a sample size
    that is not positive it returns the empty map with total mana 0 and does
    not touch the random source. *)
Theorem ManaBasedSampling_no_givers (maxQuerySampleSize querySampleSize : Z) (rng : Rand) :
  (0 < querySampleSize →
   ManaBasedSampling (@nil G) maxQuerySampleSize querySampleSize rng = None
   ∧ UniformSampling (@nil G) maxQuerySampleSize querySampleSize rng = None)
  ∧ (querySampleSize <= 0 →
     ManaBasedSampling (@nil G) maxQuerySampleSize querySampleSize rng
     = Some (∅, 0%float, rng)).
Proof.
  unfold ManaBasedSampling, UniformSampling. cbn [sumMana].
  change (PrimFloat.abs 0 <=? toleranceTotalMana)%float with true. cbv iota.
  split.
  - intros Hpos. destruct (Z.to_nat querySampleSize) as [|n] eqn:Hn; [lia|].
    split; reflexivity.
  - intros Hneg. replace (Z.to_nat querySampleSize) with 0%nat by lia. reflexivity.
Qed.




(** X17: the formation pass skips new contexts and appends to every other
    context exactly one opinion, Like when the biased liked proportion
    reaches the threshold drawn for the context and Dislike otherwise, never
    Unknown; it keeps the ids of the registry and writes no other field of a
    context and nothing else of the engine. *)
Theorem formOpinions_forms (f : FPC) (rand : float64) :
  let f' := formOpinions HadFirstRound f rand in
  events f' = events f ∧ queue f' = queue f ∧ queueSet f' = queueSet f
  ∧ lastRoundCompletedSuccessfully f' = lastRoundCompletedSuccessfully f
  ∧ (∀ id, ctxs f !! id = None → ctxs f' !! id = None)
  ∧ ∀ id c, ctxs f !! id = Some c →
      ∃ c', ctxs f' !! id = Some c'
        ∧ ID c' = ID c ∧ Type_ c' = Type_ c ∧ Rounds c' = Rounds c
        ∧ ProportionLiked c' = ProportionLiked c ∧ Weights c' = Weights c
        ∧ if IsNew c then Opinions c' = Opinions c
          else
            let threshold := RandUniformThreshold rand
                               (setThreshold HadFirstRound (paras f) c).1
                               (setThreshold HadFirstRound (paras f) c).2 in
            let o := if (threshold <=? biasTowardsOwnOpinion c)%float then Like else Dislike in
            Opinions c' = Opinions c ++ [o] ∧ LastOpinion c' = o ∧ o ≠ Unknown.
Proof.
  intros f'. do 4 (split; [reflexivity|]). split.
  - intros id Hc. unfold f'. simpl. by rewrite lookup_fmap, Hc.
  - intros id c Hc. exists (formOpinion HadFirstRound (paras f) rand c).
    split; [unfold f'; simpl; by rewrite lookup_fmap, Hc|].
    destruct (formOpinion_fields HadFirstRound (paras f) rand c)
      as (Hid & Hty & Hr & Hpl & Hw & _).
    do 5 (split; [done|]). unfold formOpinion.
    destruct (IsNew c); [done|].
    destruct (setThreshold HadFirstRound (paras f) c) as [lower upper]. simpl.
    destruct (_ <=? _)%float; simpl.
    + split; [done|]. split; [|done]. unfold LastOpinion. simpl. apply List.last_last.
    + split; [done|]. split; [|done]. unfold LastOpinion. simpl. apply List.last_last.
Qed.

End Sample.

Lemma UniformSampling_counts_witness :
  ∃ m rng', UniformSampling [0; 0; 5]%nat 1 4 example_rng = Some (m, rng')
    ∧ sumCounts m = 4 ∧ rng_calls rng' = 4%nat.
Proof.
  destruct (UniformSampling_counts [0; 0; 5]%nat 1 4 example_rng)
    as (m & rng' & Hu & Hsum & _ & _ & Hcalls & _).
  - discriminate.
  - vm_compute. split; discriminate.
  - exists m, rng'. split; [exact Hu|]. split; [exact Hsum|exact Hcalls].
Defined.

Lemma ManaBasedSampling_no_givers_witness :
  ManaBasedSampling (@nil nat) 3 1 example_rng = None
  ∧ ManaBasedSampling (@nil nat) 3 0 example_rng = Some (∅, 0%float, example_rng).
Proof.
  split.
  - destruct (ManaBasedSampling_no_givers (G := nat) 3 1 example_rng) as [Hpos _].
    destruct Hpos as [Hm _]; [lia|exact Hm].
  - destruct (ManaBasedSampling_no_givers (G := nat) 3 0 example_rng) as [_ Hneg].
    apply Hneg. lia.
Defined.


Lemma formOpinions_forms_witness :
  ∃ c', ctxs (formOpinions example_HadFirstRound (tickAll (enqueue two_votes)) 0.5%float) !! "c"
        = Some c'
    ∧ Opinions c' = [Like; Dislike].
Proof.
  destruct (formOpinions_forms example_HadFirstRound (tickAll (enqueue two_votes)) 0.5%float)
    as (_ & _ & _ & _ & _ & Hc).
  destruct (ctxs (tickAll (enqueue two_votes)) !! "c") as [c|] eqn:Ec;
    [|vm_compute in Ec; discriminate].
  destruct (Hc "c" c Ec) as (c' & Hl & _ & _ & _ & _ & _ & Ho).
  vm_compute in Ec. injection Ec as <-.
  vm_compute in Ho. exists c'. split; [exact Hl|]. exact (proj1 Ho).
Defined.
